(** * The Kubernetes watcher of teleproxy ([lib/k8s/watcher.go])

    A shallow embedding of the watch registry: registration
    ([Watch], [WatchNamespace], [WatchInternal]), the event handlers given
    to the informer, the start-up barrier ([Start]), the query API
    ([List], [ListInternal], [Get], [Exists]) and the write-through status
    update ([UpdateStatus]).

    Effects are explicit.  A function that talks to the outside world
    returns the list of [Event]s it performed (lock operations, listener
    calls, remote calls); the goroutines that run beside the caller are a
    schedule of [Activity] values consumed while the caller blocks. *)

From stdpp Require Import base option list gmap strings.
From Stdlib Require Import Ascii String NArith Lia.

Local Open Scope string_scope.
Local Open Scope list_scope.
Local Set Warnings "-register-all".

(** ** Go's [strings.EqualFold], on strings of ASCII bytes

    The loop of [EqualFold] compares the two strings position by
    position.  Equal bytes match; otherwise the smaller one must be an
    upper-case letter and the larger one the same letter in lower case.
    Bytes outside ASCII belong to multi-byte runes, which Go folds with
    the Unicode tables; here they match only themselves. *)

Definition eq_fold_byte (sr tr : ascii) : bool :=
  let s := N_of_ascii sr in
  let t := N_of_ascii tr in
  if (t =? s)%N then true
  else
    let lo := if (t <? s)%N then t else s in
    let hi := if (t <? s)%N then s else t in
    ((65 <=? lo)%N && (lo <=? 90)%N && (hi =? lo + 32)%N)%bool.

Fixpoint EqualFold (s t : string) : bool :=
  match s, t with
  | EmptyString, EmptyString => true
  | String a s', String b t' => eq_fold_byte a b && EqualFold s' t'
  | _, _ => false
  end.

(** The canonical representative of a byte under case folding, used only
    to reason about [EqualFold]. *)
Definition lower_code (n : N) : N :=
  if ((65 <=? n) && (n <=? 90))%N then (n + 32)%N else n.

Definition lower_byte (a : ascii) : N := lower_code (N_of_ascii a).

Fixpoint lower_codes (s : string) : list N :=
  match s with
  | EmptyString => []
  | String a s' => lower_byte a :: lower_codes s'
  end.

(** ** Group/version/resource triples ([schema.GroupVersionResource]) *)

Module schema.

Record GroupVersionResource := {
  Group : string;
  Version : string;
  Resource : string
}.

#[global] Instance GroupVersionResource_eq_dec : EqDecision GroupVersionResource.
Proof. solve_decision. Defined.

#[global] Instance GroupVersionResource_countable : Countable GroupVersionResource.
Proof.
  apply (inj_countable'
           (λ g, (Group g, Version g, Resource g))
           (λ t, {| Group := t.1.1; Version := t.1.2; Resource := t.2 |})).
  by intros [].
Defined.

End schema.

(** ** Objects

    A [Resource] is Go's [map[string]interface{}]: a schema-less mapping
    from field names to values, where a value is a string or a nested
    mapping.  An [*unstructured.Unstructured] wraps one such mapping in its
    [Object] field, and [SetUnstructuredContent] / [UnstructuredContent]
    install and return that mapping, so the embedding uses the mapping for
    both. *)

Inductive value :=
  | VString (s : string)
  | VMap (m : gmap string value).

Abbreviation Resource := (gmap string value).

Module unstructured.

(** [NestedString obj a b]: the string at [obj[a][b]], or the empty
    string when the path is absent or is not a string. *)
Definition NestedString (obj : Resource) (a b : string) : string :=
  match obj !! a with
  | Some (VMap m) =>
      match m !! b with
      | Some (VString s) => s
      | _ => ""
      end
  | _ => ""
  end.

Definition GetNamespace (obj : Resource) : string :=
  NestedString obj "metadata" "namespace".

Definition GetName (obj : Resource) : string :=
  NestedString obj "metadata" "name".

Definition GetResourceVersion (obj : Resource) : string :=
  NestedString obj "metadata" "resourceVersion".

End unstructured.

(** Modelled from the spec: the accessors of [Resource] ([Kind], [Name],
    [Namespace], [QName]), which the package defines outside [watcher.go].
    The spec gives a Resource a Kind, a Name, a Namespace and a composite
    qualified name: name plus namespace, the namespace defaulted to
    [default]; the qualified names it writes are of the form
    [Foo.default]. *)
Module Res.

Definition Kind (r : Resource) : string :=
  match r !! "kind" with
  | Some (VString s) => s
  | _ => ""
  end.

Definition Name (r : Resource) : string := unstructured.GetName r.

Definition Namespace (r : Resource) : string :=
  let ns := unstructured.GetNamespace r in
  if decide (ns = "") then "default" else ns.

Definition QName (r : Resource) : string :=
  Name r +:+ "." +:+ Namespace r.

End Res.

(** An object with the metadata the watcher looks at. *)
Definition mkObject (kind ns name rv : string) : Resource :=
  <["kind" := VString kind]>
    (<["metadata" := VMap (<["namespace" := VString ns]>
                            (<["name" := VString name]>
                               (<["resourceVersion" := VString rv]> ∅)))]> ∅).

(** ** The dynamic client ([k8s.io/client-go/dynamic])

    Modelled from the spec: a Collection Handle is bound to one
    fully-qualified resource collection and optionally one namespace.
    [Resource g] is the handle of the whole collection; [Namespace c ns]
    rebinds a handle to a namespace, and the empty namespace stands for
    every namespace. *)
Module dynamic.

Record ResourceInterface := {
  gvr : schema.GroupVersionResource;
  namespace : string
}.

#[global] Instance ResourceInterface_eq_dec : EqDecision ResourceInterface.
Proof. solve_decision. Defined.

Definition Resource (g : schema.GroupVersionResource) : ResourceInterface :=
  {| gvr := g; namespace := "" |}.

Definition Namespace (c : ResourceInterface) (ns : string) : ResourceInterface :=
  {| gvr := gvr c; namespace := ns |}.

(** The objects a List or a Watch through handle [c] can deliver. *)
Definition serves (c : ResourceInterface) (obj : gmap string value) : bool :=
  bool_decide (namespace c = "" ∨ unstructured.GetNamespace obj = namespace c).

End dynamic.

(** ** The informer's store and deltas ([k8s.io/client-go/tools/cache])

    Modelled from the spec: the Local Store is keyed by the identity of
    the object (namespace and name) and holds the most recently observed
    Resource per key. *)
Module cache.

Definition MetaNamespaceKeyFunc (obj : Resource) : string :=
  let ns := unstructured.GetNamespace obj in
  if decide (ns = "") then unstructured.GetName obj
  else ns +:+ "/" +:+ unstructured.GetName obj.

Abbreviation Store := (gmap string Resource).

Definition Add (s : Store) (obj : Resource) : Store :=
  <[MetaNamespaceKeyFunc obj := obj]> s.

Definition Update (s : Store) (obj : Resource) : Store :=
  <[MetaNamespaceKeyFunc obj := obj]> s.

Definition Delete (s : Store) (obj : Resource) : Store :=
  delete (MetaNamespaceKeyFunc obj) s.

Definition Get (s : Store) (obj : Resource) : option Resource :=
  s !! MetaNamespaceKeyFunc obj.

Definition List (s : Store) : list Resource := (map_to_list s).*2.

(** The kinds of change an informer processes: the three event kinds of
    the watch stream and the replay of a (re)listing. *)
Inductive DeltaType := Added | Updated | Deleted | Sync.

End cache.

(** ** The watcher's data *)

(** A listener is a Go closure taking the watcher; all the embedding keeps
    of it is an identity, recorded when it is called. *)
Definition Listener := nat.

Record watchKey := {
  GroupVersionResource : schema.GroupVersionResource;
  Namespace : string
}.

#[global] Instance watchKey_eq_dec : EqDecision watchKey.
Proof. solve_decision. Defined.

#[global] Instance watchKey_countable : Countable watchKey.
Proof.
  apply (inj_countable'
           (λ k, (GroupVersionResource k, Namespace k))
           (λ t, {| GroupVersionResource := t.1; Namespace := t.2 |})).
  by intros [].
Defined.

Inductive error :=
  | ErrConfig (msg : string)
  | ErrNoWatch (g : schema.GroupVersionResource)
  | ErrRemote (msg : string).

(** What a call does to the world outside the watcher's own fields. *)
Inductive Event :=
  | Lock
  | Unlock
  | Notify (k : watchKey) (l : Listener)
  | CallUpdateStatus (c : dynamic.ResourceInterface) (obj : Resource).

(** A watch entry.  [resource], [hasSynced] and [store] are the fields of
    the Go struct; [hasSynced] and [store] hold the current state of the
    informer they point to.  The closures [invoke] and [runner] of the Go
    struct are the functions [invoke] and [runner] below, applied to the
    entry; [listener], [watched] and [running] are what those closures and
    the informer captured: the registered listener, the handle the
    informer lists and watches, and whether its loop has been launched.
    An entry holds the state of the informer made by the latest
    registration of its key; an informer launched for an entry that a
    later registration of the same key replaced goes on in the code, and
    is not followed here. *)
Record watch := {
  resource : dynamic.ResourceInterface;
  hasSynced : bool;
  store : gmap string Resource;
  listener : Listener;
  watched : dynamic.ResourceInterface;
  running : bool
}.

Definition with_store (e : watch) (s : gmap string Resource) : watch :=
  {| resource := resource e; hasSynced := hasSynced e; store := s;
     listener := listener e; watched := watched e; running := running e |}.

Definition with_hasSynced (e : watch) (b : bool) : watch :=
  {| resource := resource e; hasSynced := b; store := store e;
     listener := listener e; watched := watched e; running := running e |}.

Definition with_running (e : watch) (b : bool) : watch :=
  {| resource := resource e; hasSynced := hasSynced e; store := store e;
     listener := listener e; watched := watched e; running := b |}.

(** What the resolver returns for a kind name. *)
Module rt.
Record ResourceType := {
  Group : string;
  Version : string;
  Name : string;
  Kind : string;
  Namespaced : bool
}.
End rt.

(** The client: its resolver methods, which the package defines outside
    [watcher.go], are taken as they are, and [config_error] is the error
    [dynamic.NewForConfig] reports for the client's configuration, if
    any. *)
Record Client := {
  config_error : option error;
  ResolveResourceType : string → rt.ResourceType;
  resolve : string → rt.ResourceType;
  Canonicalize : string → string
}.

(** The watcher.  [stop] tells whether the stop channel has been closed,
    [wg] is the counter of the wait group; the mutex shows as [Lock] and
    [Unlock] events. *)
Record Watcher := {
  client : Client;
  watches : gmap watchKey watch;
  started : bool;
  stop : bool;
  wg : nat
}.

Definition with_watches (w : Watcher) (ws : gmap watchKey watch) : Watcher :=
  {| client := client w; watches := ws; started := started w;
     stop := stop w; wg := wg w |}.

Definition with_started (w : Watcher) (b : bool) : Watcher :=
  {| client := client w; watches := watches w; started := b;
     stop := stop w; wg := wg w |}.

Definition with_stop (w : Watcher) (b : bool) : Watcher :=
  {| client := client w; watches := watches w; started := started w;
     stop := b; wg := wg w |}.

Definition with_wg (w : Watcher) (n : nat) : Watcher :=
  {| client := client w; watches := watches w; started := started w;
     stop := stop w; wg := n |}.

Definition gvr_of (ri : rt.ResourceType) : schema.GroupVersionResource :=
  {| schema.Group := rt.Group ri;
     schema.Version := rt.Version ri;
     schema.Resource := rt.Name ri |}.

(** ** Registration *)

Definition NewWatcher (c : Client) : Watcher :=
  {| client := c; watches := ∅; started := false; stop := false; wg := 0 |}.

Definition WatchInternal (w : Watcher) (g : schema.GroupVersionResource)
    (namespace : string) (l : Listener) : Watcher * option error :=
  match config_error (client w) with
  | Some err => (w, Some err)
  | None =>
      let resource := dynamic.Resource g in
      let watched :=
        if decide (namespace = "") then dynamic.Namespace resource namespace
        else resource in
      (with_watches w
         (<[ {| GroupVersionResource := g; Namespace := namespace |} :=
             {| resource := resource; hasSynced := false; store := ∅;
                listener := l; watched := watched; running := false |} ]>
            (watches w)),
       None)
  end.

Definition WatchNamespace (w : Watcher) (namespace resources : string)
    (l : Listener) : Watcher * option error :=
  let ri := ResolveResourceType (client w) resources in
  WatchInternal w (gvr_of ri) namespace l.

Definition Watch (w : Watcher) (resources : string) (l : Listener)
    : Watcher * option error :=
  WatchNamespace w "" resources l.

(** ** The handlers given to the informer *)

(** The closure [invoke] of an entry: under the lock, call the listener if
    the informer has synced. *)
Definition invoke (k : watchKey) (e : watch) : list Event :=
  [Lock] ++ (if hasSynced e then [Notify k (listener e)] else []) ++ [Unlock].

Definition AddFunc (k : watchKey) (e : watch) (obj : Resource) : list Event :=
  invoke k e.

Definition UpdateFunc (k : watchKey) (e : watch) (oldObj newObj : Resource)
    : list Event :=
  if decide (unstructured.GetResourceVersion oldObj
             ≠ unstructured.GetResourceVersion newObj)
  then invoke k e
  else [].

Definition DeleteFunc (k : watchKey) (e : watch) (obj : Resource) : list Event :=
  invoke k e.

(** Modelled from the spec: the Reflector's treatment of one event.  An
    added object is put in the store and a deleted one removed, and the
    callback is called; for a modified object the handler compares the
    incoming token with the token stored for that key.  Where the spec is
    silent the informer library's rule is followed: the store is brought
    up to date first, and a replayed, added or modified object is an
    update when its key is in the store and an addition otherwise. *)
Definition process (k : watchKey) (e : watch) (d : cache.DeltaType)
    (obj : Resource) : watch * list Event :=
  match d with
  | cache.Sync | cache.Added | cache.Updated =>
      match cache.Get (store e) obj with
      | Some old =>
          (with_store e (cache.Update (store e) obj), UpdateFunc k e old obj)
      | None =>
          (with_store e (cache.Add (store e) obj), AddFunc k e obj)
      end
  | cache.Deleted =>
      (with_store e (cache.Delete (store e) obj), DeleteFunc k e obj)
  end.

(** ** Queries *)

Definition ListInternal (w : Watcher) (g : schema.GroupVersionResource)
    (namespace : string) : list Resource :=
  match watches w !! {| GroupVersionResource := g; Namespace := namespace |} with
  | Some e => cache.List (store e)
  | None => []
  end.

Definition List (w : Watcher) (kind : string) : list Resource :=
  let ri := resolve (client w) (Canonicalize (client w) kind) in
  ListInternal w (gvr_of ri) "".

(** The loop of [Get] over the listed resources. *)
Fixpoint Get_scan (resources : list Resource) (qname : string) : Resource :=
  match resources with
  | [] => ∅
  | res :: rest =>
      if EqualFold (Res.QName res) qname then res else Get_scan rest qname
  end.

Definition Get (w : Watcher) (kind qname : string) : Resource :=
  Get_scan (List w kind) qname.

Definition Exists (w : Watcher) (kind qname : string) : bool :=
  bool_decide (Res.Name (Get w kind qname) ≠ "").

(** ** Write-through status update

    [server] is what the API server answers to a status update sent
    through a handle: the updated object, or an error. *)
Definition UpdateStatus
    (server : dynamic.ResourceInterface → Resource → Resource + error)
    (w : Watcher) (res : Resource)
    : Watcher * (Resource + error) * list Event :=
  let ri := resolve (client w) (Canonicalize (client w) (Res.Kind res)) in
  let g := gvr_of ri in
  let uns := res in
  let k := {| GroupVersionResource := g;
              Namespace := unstructured.GetNamespace uns |} in
  match watches w !! k with
  | None => (w, inr (ErrNoWatch g), [])
  | Some e =>
      let target :=
        dynamic.Namespace (resource e) (unstructured.GetNamespace uns) in
      match server target uns with
      | inr err => (w, inr err, [CallUpdateStatus target uns])
      | inl result =>
          (with_watches w
             (<[k := with_store e (cache.Update (store e) result)]> (watches w)),
           inl result,
           [CallUpdateStatus target uns])
      end
  end.

(** ** What runs beside the caller

    One step of the goroutines other than the caller's: the informer of
    entry [k] processes a delta, the informer of [k] finishes popping its
    first listing (its [HasSynced] turns true, and stays so), some
    goroutine calls [UpdateStatus], or the stop channel is closed (a call
    of [Stop]).  An
    informer acts only once launched, and only on objects its handle
    serves.

    Modelled from the spec: readiness never reverts to false, and it is
    the initial load only that gates it. *)
Inductive Activity :=
  | Deliver (k : watchKey) (d : cache.DeltaType) (obj : Resource)
  | InitialListDone (k : watchKey)
  | Update (server : dynamic.ResourceInterface → Resource → Resource + error)
           (res : Resource)
  | CloseStop.

Definition act (a : Activity) (w : Watcher) : Watcher * list Event :=
  match a with
  | Deliver k d obj =>
      match watches w !! k with
      | Some e =>
          if running e && dynamic.serves (watched e) obj then
            let '(e', evs) := process k e d obj in
            (with_watches w (<[k := e']> (watches w)), evs)
          else (w, [])
      | None => (w, [])
      end
  | InitialListDone k =>
      match watches w !! k with
      | Some e =>
          if running e
          then (with_watches w (<[k := with_hasSynced e true]> (watches w)), [])
          else (w, [])
      | None => (w, [])
      end
  | Update server res =>
      let '(w', _, evs) := UpdateStatus server w res in (w', evs)
  | CloseStop => (with_stop w true, [])
  end.

Fixpoint run (sched : list Activity) (w : Watcher) : Watcher * list Event :=
  match sched with
  | [] => (w, [])
  | a :: rest =>
      let '(w1, evs1) := act a w in
      let '(w2, evs2) := run rest w1 in
      (w2, evs1 ++ evs2)
  end.

(** ** Start *)

(** Modelled from the spec: the barrier over all registered watches,
    [cache.WaitForCacheSync].  It polls until every readiness predicate
    holds or the stop channel is closed; the schedule says what the other
    goroutines do between two polls.  [WaitPending] is a wait that is
    still blocked when the schedule ends. *)
Inductive WaitResult :=
  | WaitSynced (w : Watcher) (others : list Event) (rest : list Activity)
  | WaitStopped (w : Watcher) (others : list Event) (rest : list Activity)
  | WaitPending (w : Watcher) (others : list Event).

Definition informerSynceds (w : Watcher) : list bool :=
  hasSynced <$> (map_to_list (watches w)).*2.

Definition all_synced (w : Watcher) : bool :=
  forallb (λ b : bool, b) (informerSynceds w).

Fixpoint WaitForCacheSync (sched : list Activity) (w : Watcher)
    (others : list Event) : WaitResult :=
  if stop w then WaitStopped w others sched
  else if all_synced w then WaitSynced w others sched
  else
    match sched with
    | [] => WaitPending w others
    | a :: rest =>
        let '(w', evs) := act a w in
        WaitForCacheSync rest w' (others ++ evs)
    end.

(** [go watch.runner()] for every entry, after [wg.Add(len(w.watches))]. *)
Definition launch (w : Watcher) : Watcher :=
  with_wg (with_watches w ((λ e, with_running e true) <$> watches w))
          (wg w + size (watches w)).

(** The last loop of [Start]: every entry's [invoke], in the order the map
    is ranged over. *)
Definition invoke_all (w : Watcher) : list Event :=
  mjoin ((λ ke, invoke ke.1 ke.2) <$> map_to_list (watches w)).

(** How a call of [Start] ends.  [own] are the events of the calling
    goroutine, [others] those of the goroutines that ran while it waited
    (in time they fall after the caller has released the lock and before
    its calls of [invoke]), [rest] the part of the schedule it did not
    wait for.  [Fatal] is
    the call of [log.Fatal] after a failed wait; [Waiting] is a call still blocked at the
    barrier when the schedule ends. *)
Inductive StartOutcome :=
  | Returned (w : Watcher) (own others : list Event) (rest : list Activity)
  | Fatal (w : Watcher) (own others : list Event)
  | Waiting (w : Watcher) (own others : list Event).

(** The barrier reads the stop channel of the watcher (the source names it
    [w.stopCh]; the struct's only channel is [stop]). *)
Definition Start (sched : list Activity) (w : Watcher) : StartOutcome :=
  if started w then Returned w [Lock; Unlock] [] sched
  else
    let w1 := launch (with_started w true) in
    match WaitForCacheSync sched w1 [] with
    | WaitSynced w2 others rest =>
        Returned w2 ([Lock; Unlock] ++ invoke_all w2) others rest
    | WaitStopped w2 others rest => Fatal w2 [Lock; Unlock] others
    | WaitPending w2 others => Waiting w2 [Lock; Unlock] others
    end.


(** ** Reading traces and outcomes *)

(** The listener calls of a trace, in order: the entry and the listener. *)
Definition notifications (evs : list Event) : list (watchKey * Listener) :=
  omap (λ ev, match ev with Notify k l => Some (k, l) | _ => None end) evs.

(** The remote calls of a trace. *)
Definition remote_calls (evs : list Event)
    : list (dynamic.ResourceInterface * Resource) :=
  omap (λ ev, match ev with CallUpdateStatus c obj => Some (c, obj) | _ => None end)
       evs.

Definition watcher_of (o : StartOutcome) : Watcher :=
  match o with
  | Returned w _ _ _ => w
  | Fatal w _ _ => w
  | Waiting w _ _ => w
  end.

(** Every event of a call of [Start]: the caller's and the others'. *)
Definition events_of (o : StartOutcome) : list Event :=
  match o with
  | Returned _ own others _ => own ++ others
  | Fatal _ own others => own ++ others
  | Waiting _ own others => own ++ others
  end.

(** The registered listeners, one per entry. *)
Definition listeners (w : Watcher) : gmap watchKey Listener :=
  listener <$> watches w.

(** Every informer has been launched. *)
Definition all_running (w : Watcher) : Prop :=
  ∀ k e, watches w !! k = Some e → running e = true.

(** Kind [kind] has been registered with namespace [ns] through
    [WatchNamespace]. *)
Definition registered_in (w : Watcher) (kind ns : string) : Prop :=
  is_Some (watches w !!
             {| GroupVersionResource := gvr_of (ResolveResourceType (client w) kind);
                Namespace := ns |}).

(** The collection key [List] consults for a kind. *)
Definition list_key (w : Watcher) (kind : string) : watchKey :=
  {| GroupVersionResource := gvr_of (resolve (client w) (Canonicalize (client w) kind));
     Namespace := "" |}.

(** Every resource listed for [kind] lies in namespace [ns]. *)
Definition lists_only_namespace (w : Watcher) (kind ns : string) : Prop :=
  ∀ r, r ∈ List w kind → unstructured.GetNamespace r = ns.

(** [Get] in the words of the spec: the first listed resource whose
    qualified name equals [qname] up to the case of letters, and the empty
    Resource if there is none. *)
Definition same_modulo_case (s t : string) : bool :=
  bool_decide (lower_codes s = lower_codes t).

Definition Get_spec (w : Watcher) (kind qname : string) : Resource :=
  match List.find (λ r, same_modulo_case (Res.QName r) qname) (List w kind) with
  | Some r => r
  | None => ∅
  end.

(** ** Sharing

    A Go map is a reference.  The store keeps pointers to the objects the
    informer decoded, [store.List] hands those pointers out, and
    [UnstructuredContent] returns the mapping an object wraps, not a copy
    of it.  This module gives the query functions over a memory in which
    that sharing shows: a heap of mappings and, per entry, a store of
    addresses. *)
Module shared.

Abbreviation addr := positive.

Record Memory := {
  heap : gmap addr Resource;
  cells : gmap watchKey (gmap string addr)
}.

Definition deref (h : gmap addr Resource) (a : addr) : Resource :=
  default ∅ (h !! a).

(** The store of entry [k] by value: what the entry's [store] field of the
    watcher holds. *)
Definition contents (μ : Memory) (k : watchKey) : option (gmap string Resource) :=
  (λ s : gmap string addr, deref (heap μ) <$> s) <$> cells μ !! k.

(** The memory represents the stores of a watcher. *)
Definition represents (μ : Memory) (w : Watcher) : Prop :=
  ∀ k, contents μ k = store <$> watches w !! k.

Definition ListInternal (μ : Memory) (g : schema.GroupVersionResource)
    (namespace : string) : list addr :=
  match cells μ !! {| GroupVersionResource := g; Namespace := namespace |} with
  | Some s => (map_to_list s).*2
  | None => []
  end.

Definition List (c : Client) (μ : Memory) (kind : string) : list addr :=
  ListInternal μ (gvr_of (resolve c (Canonicalize c kind))) "".

Fixpoint Get_scan (h : gmap addr Resource) (resources : list addr)
    (qname : string) : option addr :=
  match resources with
  | [] => None
  | a :: rest =>
      if EqualFold (Res.QName (deref h a)) qname then Some a
      else Get_scan h rest qname
  end.

(** [Get] returns a listed resource, or allocates the empty one. *)
Definition Get (c : Client) (μ : Memory) (kind qname : string) : addr * Memory :=
  match Get_scan (heap μ) (List c μ kind) qname with
  | Some a => (a, μ)
  | None =>
      let a := fresh (dom (heap μ)) in
      (a, {| heap := <[a := ∅]> (heap μ); cells := cells μ |})
  end.

(** The assignment [res[field] = v] of a caller through a resource it was
    given. *)
Definition assign (μ : Memory) (a : addr) (field : string) (v : value) : Memory :=
  {| heap := alter (<[field := v]>) a (heap μ); cells := cells μ |}.

(** Every address kept in a store is allocated. *)
Definition closed (μ : Memory) : Prop :=
  ∀ k s key a, cells μ !! k = Some s → s !! key = Some a → is_Some (heap μ !! a).

(** The claim of independent copies: no assignment through a listed
    resource changes what a store holds. *)
Definition independent_copies (μ : Memory) : Prop :=
  ∀ g ns a field v k,
    a ∈ ListInternal μ g ns → contents (assign μ a field v) k = contents μ k.

End shared.

(** ** Example data *)
Module example.

Definition resolver (s : string) : rt.ResourceType :=
  {| rt.Group := ""; rt.Version := "v1"; rt.Name := s; rt.Kind := s;
     rt.Namespaced := true |}.

Definition cluster : Client :=
  {| config_error := None; ResolveResourceType := resolver;
     resolve := resolver; Canonicalize := λ s, s |}.

Definition pods : schema.GroupVersionResource := gvr_of (resolver "pods").

Definition pods_everywhere : watchKey :=
  {| GroupVersionResource := pods; Namespace := "" |}.

Definition pods_in_a : watchKey :=
  {| GroupVersionResource := pods; Namespace := "ns-a" |}.

Definition web_b : Resource := mkObject "pods" "ns-b" "web" "7".
Definition web_a1 : Resource := mkObject "pods" "ns-a" "web" "1".
Definition web_a2 : Resource := mkObject "pods" "ns-a" "web" "2".
Definition node1 : Resource := mkObject "nodes" "" "node1" "4".
Definition node1' : Resource := mkObject "nodes" "" "node1" "5".

(** Pods registered in namespace ns-a only. *)
Definition only_a : Watcher :=
  (WatchNamespace (NewWatcher cluster) "ns-a" "pods" 1).1.

(** Pods registered in namespace ns-a and for every namespace. *)
Definition a_and_everywhere : Watcher := (Watch only_a "pods" 2).1.

(** The same after [Start], the cluster holding one pod, in ns-b. *)
Definition a_and_everywhere_started : Watcher :=
  watcher_of
    (Start [Deliver pods_everywhere cache.Sync web_b;
            Deliver pods_in_a cache.Sync web_b;
            InitialListDone pods_everywhere;
            InitialListDone pods_in_a]
       a_and_everywhere).

(** A watcher of every pod whose [Start] is still at the barrier: one
    object of the first listing has been processed. *)
Definition at_barrier : Watcher :=
  watcher_of (Start [Deliver pods_everywhere cache.Sync web_a1]
                (Watch (NewWatcher cluster) "pods" 1).1).

(** A started watcher of nodes and of pods, nothing in the cluster. *)
Definition empty_cluster : Watcher :=
  (Watch (Watch (NewWatcher cluster) "nodes" 1).1 "pods" 2).1.

Definition nodes_everywhere : watchKey :=
  {| GroupVersionResource := gvr_of (resolver "nodes"); Namespace := "" |}.

Definition nodes_running : Watcher :=
  watcher_of (Start [Deliver nodes_everywhere cache.Sync node1;
                     InitialListDone nodes_everywhere]
                (Watch (NewWatcher cluster) "nodes" 1).1).

(** The entry of the nodes once synced, holding version 4 of a node. *)
Definition nodes_entry : watch :=
  {| resource := dynamic.Resource (gvr_of (resolver "nodes"));
     hasSynced := true;
     store := {[ "node1" := node1 ]};
     listener := 1;
     watched := dynamic.Resource (gvr_of (resolver "nodes"));
     running := true |}.

(** A server that accepts a status update and stamps version 5. *)
Definition accepting (c : dynamic.ResourceInterface) (obj : Resource)
    : Resource + error :=
  inl (mkObject (Res.Kind obj) (unstructured.GetNamespace obj)
         (unstructured.GetName obj) "5").

Definition rejecting (c : dynamic.ResourceInterface) (obj : Resource)
    : Resource + error :=
  inr (ErrRemote "conflict").

(** A memory with one pod in the store of the all-namespaces entry. *)
Definition one_pod : shared.Memory :=
  {| shared.heap := {[ 1%positive := web_a1 ]};
     shared.cells := {[ pods_everywhere := {[ "ns-a/web" := 1%positive ]} ]} |}.

End example.

(** ** The claims that fail, as stated *)

(** The spec's rule for a modified event, read on an entry: the listener
    is called exactly when the token of the incoming object differs from
    the token of the object stored under its key. *)
Definition modified_fires_iff_token_differs (k : watchKey) (e : watch)
    (new : Resource) : Prop :=
  ∀ old, cache.Get (store e) new = Some old →
    (Notify k (listener e) ∈ (process k e cache.Updated new).2
     ↔ unstructured.GetResourceVersion new ≠ unstructured.GetResourceVersion old).

(** ** Shutdown: the runner, [Stop] and [Wait]

    The closure [runner] of an entry runs the informer until the stop
    channel is closed and then calls [wg.Done].  [runner_exit k] is that
    end: it can happen only for a launched informer and only once the
    channel is closed.  (A runner exists only after [Start] has counted
    it in, so the counter is positive when it exits.) *)
Definition runner_exit (k : watchKey) (w : Watcher) : Watcher :=
  match watches w !! k with
  | Some e =>
      if running e && stop w
      then with_wg (with_watches w (<[k := with_running e false]> (watches w)))
                   (wg w - 1)
      else w
  | None => w
  end.

(** What the other goroutines do while a caller blocks in [wg.Wait]: a
    step of activity, or the end of a runner. *)
Inductive Ending :=
  | Runs (a : Activity)
  | Exits (k : watchKey).

Definition end_step (x : Ending) (w : Watcher) : Watcher * list Event :=
  match x with
  | Runs a => act a w
  | Exits k => (runner_exit k w, [])
  end.

(** [wg.Wait]: block until the counter is zero.  [WgPending] is a wait
    still blocked when the schedule ends. *)
Inductive WgResult :=
  | WgDone (w : Watcher) (others : list Event) (rest : list Ending)
  | WgPending (w : Watcher) (others : list Event).

Fixpoint wg_Wait (sched : list Ending) (w : Watcher) (others : list Event)
    : WgResult :=
  if (wg w =? 0)%nat then WgDone w others sched
  else
    match sched with
    | [] => WgPending w others
    | x :: rest =>
        let '(w', evs) := end_step x w in
        wg_Wait rest w' (others ++ evs)
    end.

(** [Stop]: close the stop channel, then wait for the runners.  Closing a
    channel that is closed already panics. *)
Inductive StopOutcome :=
  | StopReturned (w : Watcher) (others : list Event) (rest : list Ending)
  | StopBlocked (w : Watcher) (others : list Event)
  | StopPanics.

Definition Stop (sched : list Ending) (w : Watcher) : StopOutcome :=
  if stop w then StopPanics
  else
    match wg_Wait sched (with_stop w true) [] with
    | WgDone w' others rest => StopReturned w' others rest
    | WgPending w' others => StopBlocked w' others
    end.

(** [Wait]: [Start], then wait for the runners.  [InStart] is a call whose
    [Start] did not return. *)
Inductive WaitOutcome :=
  | AfterStart (own : list Event) (r : WgResult)
  | InStart (o : StartOutcome).

Definition Wait (sched : list Activity) (ending : list Ending) (w : Watcher)
    : WaitOutcome :=
  match Start sched w with
  | Returned w1 own others rest =>
      AfterStart own (wg_Wait ((Runs <$> rest) ++ ending) w1 others)
  | Fatal w1 own others => InStart (Fatal w1 own others)
  | Waiting w1 own others => InStart (Waiting w1 own others)
  end.

(** ** Executions

    Registrations first, as the API asks, then any sequence of calls of
    [Start], steps of the other goroutines and ends of runners. *)
Definition register_all
    (regs : list (schema.GroupVersionResource * string * Listener))
    (w : Watcher) : Watcher :=
  foldl (λ w r, (WatchInternal w r.1.1 r.1.2 r.2).1) w regs.

(** The events of a call of [Start] in the order of time: the caller
    takes and releases the lock, the other goroutines act while it waits,
    and then it makes its calls of [invoke]. *)
Definition timeline (o : StartOutcome) : list Event :=
  match o with
  | Returned _ own others _ => take 2 own ++ others ++ drop 2 own
  | Fatal _ own others => take 2 own ++ others ++ drop 2 own
  | Waiting _ own others => take 2 own ++ others ++ drop 2 own
  end.

Inductive Call :=
  | DoStart (sched : list Activity)
  | DoActivity (a : Activity)
  | DoExit (k : watchKey).

Definition perform1 (c : Call) (w : Watcher) : Watcher * list Event :=
  match c with
  | DoStart sched => (watcher_of (Start sched w), timeline (Start sched w))
  | DoActivity a => act a w
  | DoExit k => (runner_exit k w, [])
  end.

Fixpoint perform (calls : list Call) (w : Watcher) : Watcher * list Event :=
  match calls with
  | [] => (w, [])
  | c :: rest =>
      let '(w1, evs1) := perform1 c w in
      let '(w2, evs2) := perform rest w1 in
      (w2, evs1 ++ evs2)
  end.

(** ** Invariants *)

(** The entries whose informer has been launched and has not exited. *)
Definition running_keys (w : Watcher) : gset watchKey :=
  dom (filter (λ ke : watchKey * watch, running ke.2 = true) (watches w)).

(** The wait group counts the running informers, and none runs before
    [Start]. *)
Definition accounted (w : Watcher) : Prop :=
  wg w = size (running_keys w)
  ∧ (started w = false → running_keys w = ∅).

(** Once started and until the stop channel is closed, every registered
    informer runs. *)
Definition kept_running (w : Watcher) : Prop :=
  started w = true → stop w = false → all_running w.

(** Every object of a store sits under its own key. *)
Definition keyed (w : Watcher) : Prop :=
  ∀ k e key r, watches w !! k = Some e → store e !! key = Some r →
               key = cache.MetaNamespaceKeyFunc r.

(** An entry that was never launched and has not synced. *)
Definition dormant (w : Watcher) (k : watchKey) (l : Listener) : Prop :=
  ∃ e, watches w !! k = Some e
       ∧ running e = false ∧ hasSynced e = false ∧ listener e = l.

(** The discipline of the mutex along a trace: [Lock] only when free,
    [Unlock] and listener calls only when held, and free at the end. *)
Fixpoint lock_ok (held : bool) (evs : list Event) : bool :=
  match evs with
  | [] => negb held
  | Lock :: rest => negb held && lock_ok true rest
  | Unlock :: rest => held && lock_ok false rest
  | Notify _ _ :: rest => held && lock_ok true rest
  | CallUpdateStatus _ _ :: rest => lock_ok held rest
  end.

(** ** More example data *)
Module scenario.

(** A client whose configuration the dynamic client rejects. *)
Definition broken : Client :=
  {| config_error := Some (ErrConfig "no kubeconfig");
     ResolveResourceType := example.resolver;
     resolve := example.resolver;
     Canonicalize := λ s, s |}.

(** Nodes and pods registered and started, everything synced. *)
Definition running_pair : Watcher :=
  watcher_of (Start [InitialListDone example.pods_everywhere;
                     InitialListDone example.nodes_everywhere]
                example.empty_cluster).

Definition pod_c : Resource := mkObject "pods" "ns-c" "db" "1".

(** Pods registered in ns-a only, started; the cluster holds one pod, in
    ns-b. *)
Definition only_a_started : Watcher :=
  watcher_of
    (Start [Deliver example.pods_in_a cache.Sync example.web_b;
            InitialListDone example.pods_in_a]
       example.only_a).

(** Pods registered in ns-a and for every namespace, started and synced;
    the cluster holds version 1 of a pod of ns-a. *)
Definition both_hold_web_a1 : Watcher :=
  watcher_of
    (Start [Deliver example.pods_everywhere cache.Sync example.web_a1;
            Deliver example.pods_in_a cache.Sync example.web_a1;
            InitialListDone example.pods_everywhere;
            InitialListDone example.pods_in_a]
       example.a_and_everywhere).

(** The object the accepting server returns for that pod. *)
Definition web_a5 : Resource := mkObject "pods" "ns-a" "web" "5".

End scenario.

(** ** The queries over the comparison of the code

    [strings.EqualFold] compares under Unicode case folding; [EqualFold]
    above is what its loop does on ASCII bytes and says nothing true of
    letters outside ASCII.  The functions below are [Get] and [Exists]
    with the comparison as a parameter, so that what is proved of them
    holds of the code's own comparison, given the two properties
    [case_folding] asks of it. *)
Fixpoint Get_scan_with (fold : string → string → bool)
    (resources : list Resource) (qname : string) : Resource :=
  match resources with
  | [] => ∅
  | res :: rest =>
      if fold (Res.QName res) qname then res
      else Get_scan_with fold rest qname
  end.

Definition Get_with (fold : string → string → bool) (w : Watcher)
    (kind qname : string) : Resource :=
  Get_scan_with fold (List w kind) qname.

Definition Exists_with (fold : string → string → bool) (w : Watcher)
    (kind qname : string) : bool :=
  bool_decide (Res.Name (Get_with fold w kind qname) ≠ "").

(** [Get] in the words of the spec, over the same comparison: the first
    listed resource whose qualified name matches, and the empty Resource
    if there is none. *)
Definition Get_spec_with (fold : string → string → bool) (w : Watcher)
    (kind qname : string) : Resource :=
  match List.find (λ r, fold (Res.QName r) qname) (List w kind) with
  | Some r => r
  | None => ∅
  end.

Fixpoint ascii_only (s : string) : bool :=
  match s with
  | EmptyString => true
  | String a s' => (N_of_ascii a <? 128)%N && ascii_only s'
  end.

(** What is assumed of the comparison: strings that match each other
    match the same strings (matching is by classes), and on strings of
    ASCII bytes it is the loop above. *)
Definition case_folding (fold : string → string → bool) : Prop :=
  (∀ q q' s, fold q q' = true → fold s q = fold s q')
  ∧ (∀ s t, ascii_only s = true → ascii_only t = true →
            fold s t = EqualFold s t).

(** * Properties *)

(** ** Case folding *)

Lemma eq_fold_byte_lower (a b : ascii) :
  eq_fold_byte a b = bool_decide (lower_byte a = lower_byte b).
Proof.
  unfold eq_fold_byte, lower_byte, lower_code.
  generalize (N_of_ascii a) (N_of_ascii b); intros s t.
  apply eq_true_iff_eq. rewrite bool_decide_eq_true.
  repeat match goal with
         | |- context [N.eqb ?x ?y] => destruct (N.eqb_spec x y)
         | |- context [N.ltb ?x ?y] => destruct (N.ltb_spec x y)
         | |- context [N.leb ?x ?y] => destruct (N.leb_spec x y)
         end; simpl; split; intros; try done; try lia.
Qed.

Lemma EqualFold_lower (s t : string) :
  EqualFold s t = bool_decide (lower_codes s = lower_codes t).
Proof.
  revert t; induction s as [|a s IH]; intros [|b t]; simpl; try done.
  rewrite IH, eq_fold_byte_lower.
  apply eq_true_iff_eq.
  rewrite andb_true_iff, !bool_decide_eq_true. split.
  - intros [-> ->]; done.
  - intros H; by simplify_eq.
Qed.

Lemma EqualFold_sym (s t : string) : EqualFold s t = EqualFold t s.
Proof.
  rewrite !EqualFold_lower. apply eq_true_iff_eq.
  rewrite !bool_decide_eq_true. split; congruence.
Qed.

Lemma EqualFold_same_class (q q' s : string) :
  EqualFold q q' = true → EqualFold s q = EqualFold s q'.
Proof.
  rewrite !EqualFold_lower, bool_decide_eq_true. intros ->. done.
Qed.

(** ** Queries *)

Lemma ListInternal_unregistered (w : Watcher) (g : schema.GroupVersionResource)
    (ns : string) :
  watches w !! {| GroupVersionResource := g; Namespace := ns |} = None →
  ListInternal w g ns = [].
Proof. unfold ListInternal. by intros ->. Qed.

Lemma List_without_cluster_entry (w : Watcher) (kind : string) :
  watches w !! list_key w kind = None → List w kind = [].
Proof. intros H. unfold List. by apply ListInternal_unregistered. Qed.

Lemma Get_scan_find (resources : list Resource) (qname : string) :
  Get_scan resources qname =
  match List.find (λ r, same_modulo_case (Res.QName r) qname) resources with
  | Some r => r
  | None => ∅
  end.
Proof.
  induction resources as [|r rest IH]; simpl; [done|].
  unfold same_modulo_case at 1. rewrite <- EqualFold_lower.
  by destruct (EqualFold (Res.QName r) qname).
Qed.

Lemma Get_scan_same_class (resources : list Resource) (q q' : string) :
  EqualFold q q' = true → Get_scan resources q = Get_scan resources q'.
Proof.
  intros Hq. induction resources as [|r rest IH]; simpl; [done|].
  by rewrite (EqualFold_same_class q q' _ Hq), IH.
Qed.

Lemma Get_scan_absent (resources : list Resource) (qname : string) :
  Forall (λ r, EqualFold (Res.QName r) qname = false) resources →
  Get_scan resources qname = ∅.
Proof. induction 1 as [|r rest Hr _ IH]; simpl; [done|]. by rewrite Hr. Qed.

Lemma Get_scan_found (resources : list Resource) (qname : string) :
  Get_scan resources qname = ∅
  ∨ (Get_scan resources qname ∈ resources
     ∧ EqualFold (Res.QName (Get_scan resources qname)) qname = true).
Proof.
  induction resources as [|r rest IH]; simpl; [by left|].
  destruct (EqualFold (Res.QName r) qname) eqn:E.
  - right. split; [apply list_elem_of_here | done].
  - destruct IH as [IH|[IH1 IH2]]; [by left|].
    right. split; [by apply list_elem_of_further | done].
Qed.

(** C6.  For a kind none of whose collection keys was ever registered,
    whatever the namespace, [List] returns the empty sequence; being a
    total function into sequences, it has no error or failure to
    return. *)
Theorem List_unregistered_kind (w : Watcher) (kind : string) :
  (∀ ns, watches w !!
           {| GroupVersionResource := GroupVersionResource (list_key w kind);
              Namespace := ns |} = None) →
  List w kind = [].
Proof. intros H. apply List_without_cluster_entry, (H ""). Qed.

Lemma List_unregistered_kind_witness :
  (∀ ns, watches example.only_a !!
           {| GroupVersionResource :=
                GroupVersionResource (list_key example.only_a "nodes");
              Namespace := ns |} = None)
  ∧ List example.only_a "nodes" = [].
Proof.
  assert (H : ∀ ns, watches example.only_a !!
           {| GroupVersionResource :=
                GroupVersionResource (list_key example.only_a "nodes");
              Namespace := ns |} = None).
  { intros ns. unfold example.only_a, WatchNamespace, WatchInternal. simpl.
    rewrite lookup_insert_ne by (intros [=]). apply lookup_empty. }
  split; [exact H | exact (List_unregistered_kind example.only_a "nodes" H)].
Defined.

(** On strings of ASCII bytes: [Get] is the linear scan the spec describes: it returns the first
    resource of [List kind] whose qualified name equals the given one up
    to the case of letters, and the empty Resource when there is none;
    and the two spellings [Foo.default] and [foo.DEFAULT] give the same
    result. *)
Theorem Get_case_insensitive_scan (w : Watcher) (kind qname : string) :
  Get w kind qname = Get_spec w kind qname
  ∧ (Get w kind qname = ∅
     ∨ (Get w kind qname ∈ List w kind
        ∧ EqualFold (Res.QName (Get w kind qname)) qname = true))
  ∧ Get w kind "Foo.default" = Get w kind "foo.DEFAULT".
Proof.
  split; [apply Get_scan_find|].
  split; [apply Get_scan_found|].
  by apply Get_scan_same_class.
Qed.

(** ** Namespace scoping *)

(** Whatever the namespace given at registration, the handle the informer
    lists and watches is bound to no namespace: the test of
    [WatchInternal] rebinds the handle only when the namespace is empty,
    where rebinding changes nothing. *)
Lemma WatchInternal_handle_unscoped (w w' : Watcher)
    (g : schema.GroupVersionResource) (ns : string) (l : Listener) :
  WatchInternal w g ns l = (w', None) →
  ∃ e, watches w' !! {| GroupVersionResource := g; Namespace := ns |} = Some e
       ∧ dynamic.namespace (watched e) = ""
       ∧ ∀ obj, dynamic.serves (watched e) obj = true.
Proof.
  unfold WatchInternal. destruct (config_error (client w)); [done|].
  intros [= <-]. eexists. split; [apply lookup_insert_eq|]. simpl.
  assert (dynamic.namespace
            (if decide (ns = "")
             then dynamic.Namespace (dynamic.Resource g) ns
             else dynamic.Resource g) = "") as Hns.
  { by destruct (decide (ns = "")) as [->|]. }
  split; [done|]. intros obj. unfold dynamic.serves.
  apply bool_decide_eq_true. by left.
Qed.

Example ListInternal_of_namespaced_entry :
  ListInternal example.a_and_everywhere_started example.pods "ns-a"
  = [example.web_b].
Proof. vm_compute. reflexivity. Qed.

(** What [List] does for a namespaced registration.  A kind registered through [WatchNamespace]
    with a non-empty namespace and not registered for every namespace
    lists as the empty sequence, because [List] consults only the entry of
    the empty namespace; so every resource [List] returns, and [Get] and
    [Exists] with it, is trivially in the namespace of the registration. *)
Theorem List_namespaced_registration (w : Watcher) (kind ns qname : string) :
  registered_in w kind ns →
  ns ≠ "" →
  watches w !! list_key w kind = None →
  List w kind = []
  ∧ lists_only_namespace w kind ns
  ∧ Get w kind qname = ∅
  ∧ Exists w kind qname = false.
Proof.
  intros _ _ H. pose proof (List_without_cluster_entry w kind H) as HL.
  unfold lists_only_namespace, Exists, Get. rewrite HL. simpl.
  split; [done|]. split; [by intros r ?%elem_of_nil|]. done.
Qed.

Lemma List_namespaced_registration_witness :
  List example.only_a "pods" = []
  ∧ lists_only_namespace example.only_a "pods" "ns-a"
  ∧ Get example.only_a "pods" "web.ns-a" = ∅
  ∧ Exists example.only_a "pods" "web.ns-a" = false.
Proof.
  apply (List_namespaced_registration example.only_a "pods" "ns-a" "web.ns-a").
  - vm_compute. eexists. reflexivity.
  - discriminate.
  - vm_compute. reflexivity.
Defined.

(** With pods registered in ns-a and also for every
    namespace, [List] returns the pod of ns-b that the entry of the empty
    namespace holds. *)
Lemma List_returns_other_namespace :
  registered_in example.a_and_everywhere_started "pods" "ns-a"
  ∧ "ns-a" ≠ ""
  ∧ ¬ lists_only_namespace example.a_and_everywhere_started "pods" "ns-a".
Proof.
  split; [vm_compute; eexists; reflexivity|].
  split; [discriminate|].
  intros H. specialize (H example.web_b).
  assert (List example.a_and_everywhere_started "pods" = [example.web_b]) as HL
    by (vm_compute; reflexivity).
  rewrite HL in H. specialize (H (list_elem_of_here _ _)).
  vm_compute in H. discriminate H.
Qed.

(** ** Handlers and activity *)

Lemma notifications_app (evs1 evs2 : list Event) :
  notifications (evs1 ++ evs2) = notifications evs1 ++ notifications evs2.
Proof. apply omap_app. Qed.

Lemma elem_of_notifications (evs : list Event) (k : watchKey) (l : Listener) :
  (k, l) ∈ notifications evs ↔ Notify k l ∈ evs.
Proof.
  unfold notifications. rewrite list_elem_of_omap. split.
  - intros (ev & Hin & Hev). destruct ev; simplify_eq. done.
  - intros Hin. by exists (Notify k l).
Qed.

Lemma Notify_not_in_silent (k : watchKey) (l : Listener) :
  Notify k l ∉ [Lock; Unlock].
Proof.
  rewrite !elem_of_cons, elem_of_nil. intros [H|[H|H]]; [discriminate H..|done].
Qed.

Lemma Notify_in_call (k k' : watchKey) (l l' : Listener) :
  Notify k l ∈ [Lock; Notify k' l'; Unlock] ↔ k = k' ∧ l = l'.
Proof.
  rewrite !elem_of_cons, elem_of_nil. split.
  - intros [H|[H|[H|H]]]; [discriminate H| |discriminate H|done].
    by injection H as -> ->.
  - intros [-> ->]. right; by left.
Qed.

Lemma invoke_cases (k : watchKey) (e : watch) :
  (hasSynced e = false ∧ invoke k e = [Lock; Unlock])
  ∨ (hasSynced e = true ∧ invoke k e = [Lock; Notify k (listener e); Unlock]).
Proof. unfold invoke. destruct (hasSynced e); [right|left]; done. Qed.

Lemma UpdateFunc_cases (k : watchKey) (e : watch) (old new : Resource) :
  (unstructured.GetResourceVersion old = unstructured.GetResourceVersion new
   ∧ UpdateFunc k e old new = [])
  ∨ (unstructured.GetResourceVersion old ≠ unstructured.GetResourceVersion new
     ∧ UpdateFunc k e old new = invoke k e).
Proof.
  unfold UpdateFunc. case_decide as H; [by right|].
  left. split; [|done]. by destruct (decide (unstructured.GetResourceVersion old
                              = unstructured.GetResourceVersion new)).
Qed.

(** Every handler call is silent, or takes the lock and releases it, or
    calls the listener of a synced entry between the two. *)
Lemma process_events (k : watchKey) (e : watch) (d : cache.DeltaType)
    (obj : Resource) :
  (process k e d obj).2 = []
  ∨ (hasSynced e = false ∧ (process k e d obj).2 = [Lock; Unlock])
  ∨ (hasSynced e = true
     ∧ (process k e d obj).2 = [Lock; Notify k (listener e); Unlock]).
Proof.
  unfold process, AddFunc, DeleteFunc.
  destruct d; try destruct (cache.Get (store e) obj) as [old|]; simpl;
    try (right; apply invoke_cases);
    destruct (UpdateFunc_cases k e old obj) as [[_ ->]|[_ ->]];
    (by left) || (right; apply invoke_cases).
Qed.

Lemma process_entry (k : watchKey) (e : watch) (d : cache.DeltaType)
    (obj : Resource) :
  ∃ s, (process k e d obj).1 = with_store e s.
Proof.
  unfold process.
  destruct d; try destruct (cache.Get (store e) obj); simpl; eauto.
Qed.

(** [UpdateStatus] calls no listener, and all it may change in the
    watcher is the store of one entry. *)
Lemma UpdateStatus_shape
    (server : dynamic.ResourceInterface → Resource → Resource + error)
    (w : Watcher) (res : Resource) :
  ∃ out evs,
    (∀ k l, Notify k l ∉ evs)
    ∧ (UpdateStatus server w res = (w, out, evs)
       ∨ ∃ k e s, watches w !! k = Some e
                  ∧ UpdateStatus server w res
                    = (with_watches w (<[k := with_store e s]> (watches w)),
                       out, evs)).
Proof.
  unfold UpdateStatus.
  destruct (watches w !! _) as [e|] eqn:Hk.
  - destruct (server _ res) as [result|err]; do 2 eexists.
    + split; [|right; eauto].
      intros k l. rewrite elem_of_cons, elem_of_nil.
      intros [H|H]; [discriminate H|done].
    + split; [|by left].
      intros k l. rewrite elem_of_cons, elem_of_nil.
      intros [H|H]; [discriminate H|done].
  - do 2 eexists. split; [|by left]. intros k l. apply not_elem_of_nil.
Qed.

(** What a step of the other goroutines does to one entry: nothing, a new
    store, or the synced flag raised. *)
Lemma act_entry (a : Activity) (w : Watcher) (k : watchKey) (e : watch) :
  watches w !! k = Some e →
  watches (act a w).1 !! k = Some e
  ∨ (∃ s, watches (act a w).1 !! k = Some (with_store e s))
  ∨ watches (act a w).1 !! k = Some (with_hasSynced e true).
Proof.
  intros Hk. destruct a as [k' d obj|k'|server res|]; simpl.
  - destruct (watches w !! k') as [e'|] eqn:Hk'; [|by left].
    destruct (running e' && dynamic.serves (watched e') obj); [|by left].
    destruct (process_entry k' e' d obj) as [s Hs].
    destruct (process k' e' d obj) as [e'' evs]; simpl in *; subst e''.
    destruct (decide (k' = k)) as [->|Hne].
    + right; left. exists s. rewrite lookup_insert_eq. congruence.
    + left. by rewrite lookup_insert_ne.
  - destruct (watches w !! k') as [e'|] eqn:Hk'; [|by left].
    destruct (running e'); [|by left]. simpl.
    destruct (decide (k' = k)) as [->|Hne].
    + right; right. rewrite lookup_insert_eq. congruence.
    + left. by rewrite lookup_insert_ne.
  - destruct (UpdateStatus_shape server w res)
      as (out & evs & _ & [->|(k' & e' & s & Hk' & ->)]); simpl; [by left|].
    destruct (decide (k' = k)) as [->|Hne].
    + right; left. exists s. rewrite lookup_insert_eq. congruence.
    + left. by rewrite lookup_insert_ne.
  - by left.
Qed.

Lemma act_entry_None (a : Activity) (w : Watcher) (k : watchKey) :
  watches w !! k = None → watches (act a w).1 !! k = None.
Proof.
  intros Hk. destruct a as [k' d obj|k'|server res|]; simpl; [| | |done].
  - destruct (watches w !! k') as [e'|] eqn:Hk'; [|done].
    destruct (running e' && dynamic.serves (watched e') obj); [|done].
    destruct (process k' e' d obj) as [e'' evs]; simpl.
    rewrite lookup_insert_ne; [done|congruence].
  - destruct (watches w !! k') as [e'|] eqn:Hk'; [|done].
    destruct (running e'); [|done]. simpl.
    rewrite lookup_insert_ne; [done|congruence].
  - destruct (UpdateStatus_shape server w res)
      as (out & evs & _ & [->|(k' & e' & s & Hk' & ->)]); simpl; [done|].
    rewrite lookup_insert_ne; [done|congruence].
Qed.

Lemma act_listeners (a : Activity) (w : Watcher) :
  listeners (act a w).1 = listeners w.
Proof.
  apply map_eq; intros k. unfold listeners. rewrite !lookup_fmap.
  destruct (watches w !! k) as [e|] eqn:Hk.
  - destruct (act_entry a w k e Hk) as [->|[[s ->]| ->]]; done.
  - by rewrite (act_entry_None a w k Hk).
Qed.

Lemma act_started (a : Activity) (w : Watcher) :
  started (act a w).1 = started w.
Proof.
  destruct a as [k d obj|k|server res|]; simpl; [| | |done].
  - destruct (watches w !! k) as [e|]; [|done].
    destruct (running e && dynamic.serves (watched e) obj); [|done].
    by destruct (process k e d obj).
  - destruct (watches w !! k) as [e|]; [|done]. by destruct (running e).
  - by destruct (UpdateStatus_shape server w res)
      as (out & evs & _ & [->|(k' & e' & s & Hk' & ->)]).
Qed.

Lemma act_synced_mono (a : Activity) (w : Watcher) (k : watchKey) (e : watch) :
  watches w !! k = Some e → hasSynced e = true →
  ∃ e', watches (act a w).1 !! k = Some e' ∧ hasSynced e' = true.
Proof.
  intros Hk Hs.
  destruct (act_entry a w k e Hk) as [H|[[s H]|H]]; eauto.
Qed.

(** A step calls the listener of an entry only if the entry was synced
    before the step. *)
Lemma act_notifies_synced (a : Activity) (w : Watcher) (k : watchKey)
    (l : Listener) :
  Notify k l ∈ (act a w).2 →
  ∃ e, watches w !! k = Some e ∧ hasSynced e = true ∧ listener e = l.
Proof.
  destruct a as [k' d obj|k'|server res|]; simpl.
  - destruct (watches w !! k') as [e'|] eqn:Hk'; [|by intros ?%elem_of_nil].
    destruct (running e' && dynamic.serves (watched e') obj);
      [|by intros ?%elem_of_nil].
    pose proof (process_events k' e' d obj) as Hev.
    destruct (process k' e' d obj) as [e'' evs]; simpl in *.
    destruct Hev as [->|[[_ ->]|[Hs ->]]]; intros Hin.
    + by apply elem_of_nil in Hin.
    + by apply Notify_not_in_silent in Hin.
    + apply Notify_in_call in Hin as [-> ->]. eauto.
  - destruct (watches w !! k') as [e'|]; [|by intros ?%elem_of_nil].
    destruct (running e'); by intros ?%elem_of_nil.
  - destruct (UpdateStatus_shape server w res)
      as (out & evs & Hev & [->|(k' & e' & s & Hk' & ->)]); simpl;
      intros Hin; by apply Hev in Hin.
  - by intros ?%elem_of_nil.
Qed.

Lemma run_cons (a : Activity) (rest : list Activity) (w : Watcher) :
  run (a :: rest) w =
  ((run rest (act a w).1).1, (act a w).2 ++ (run rest (act a w).1).2).
Proof.
  simpl. destruct (act a w) as [w1 evs1]. simpl.
  by destruct (run rest w1) as [w2 evs2].
Qed.

Lemma run_synced_mono (sched : list Activity) (w : Watcher) (k : watchKey)
    (e : watch) :
  watches w !! k = Some e → hasSynced e = true →
  ∃ e', watches (run sched w).1 !! k = Some e' ∧ hasSynced e' = true.
Proof.
  revert w e. induction sched as [|a rest IH]; intros w e Hk Hs.
  - simpl. eauto.
  - rewrite run_cons. simpl.
    destruct (act_synced_mono a w k e Hk Hs) as (e1 & Hk1 & Hs1). eauto.
Qed.

Lemma run_started (sched : list Activity) (w : Watcher) :
  started (run sched w).1 = started w.
Proof.
  revert w. induction sched as [|a rest IH]; intros w; [done|].
  rewrite run_cons. simpl. by rewrite IH, act_started.
Qed.

Lemma run_listeners (sched : list Activity) (w : Watcher) :
  listeners (run sched w).1 = listeners w.
Proof.
  revert w. induction sched as [|a rest IH]; intros w; [done|].
  rewrite run_cons. simpl. by rewrite IH, act_listeners.
Qed.

Lemma run_notifies_synced (sched : list Activity) (w : Watcher) (k : watchKey)
    (l : Listener) :
  Notify k l ∈ (run sched w).2 →
  ∃ e, watches (run sched w).1 !! k = Some e ∧ hasSynced e = true.
Proof.
  revert w. induction sched as [|a rest IH]; intros w.
  - simpl. by intros ?%elem_of_nil.
  - rewrite run_cons. simpl. intros [Hin|Hin]%elem_of_app.
    + destruct (act_notifies_synced a w k l Hin) as (e & Hwk & Hes & _).
      destruct (act_synced_mono a w k e Hwk Hes) as (e1 & Hk1 & Hs1).
      by apply (run_synced_mono rest _ k e1).
    + by apply IH.
Qed.

(** ** The barrier *)

Lemma all_synced_spec (w : Watcher) :
  all_synced w = true ↔
  ∀ k e, watches w !! k = Some e → hasSynced e = true.
Proof.
  unfold all_synced, informerSynceds.
  rewrite forallb_forall. split.
  - intros H k e Hk. apply H. apply list_elem_of_In.
    apply list_elem_of_fmap. exists e. split; [done|].
    apply list_elem_of_fmap. exists (k, e). split; [done|].
    by apply elem_of_map_to_list.
  - intros H b Hb. apply list_elem_of_In in Hb.
    apply list_elem_of_fmap in Hb as (e & -> & He).
    apply list_elem_of_fmap in He as ([k e'] & -> & Hke).
    apply elem_of_map_to_list in Hke. by apply (H k).
Qed.

Lemma not_all_synced (w : Watcher) :
  all_synced w = false →
  ∃ k e, watches w !! k = Some e ∧ hasSynced e = false.
Proof.
  intros H. unfold all_synced, informerSynceds in H.
  assert (∃ ke, ke ∈ map_to_list (watches w) ∧ hasSynced ke.2 = false)
    as ([k e] & Hin & He).
  { induction (map_to_list (watches w)) as [|[k e] rest IH]; [done|].
    simpl in H. destruct (hasSynced e) eqn:He.
    - destruct (IH H) as (ke & Hin & Hke).
      exists ke. split; [by apply list_elem_of_further | done].
    - exists (k, e). split; [apply list_elem_of_here | done]. }
  exists k, e. split; [by apply elem_of_map_to_list | done].
Qed.

(** A wait is a run of a prefix of the schedule: up to the first poll
    that finds the stop channel closed or every informer synced. *)
Lemma WaitForCacheSync_run (sched : list Activity) (w : Watcher)
    (others : list Event) :
  match WaitForCacheSync sched w others with
  | WaitSynced w' evs rest =>
      ∃ prefix, sched = prefix ++ rest
                ∧ w' = (run prefix w).1 ∧ evs = others ++ (run prefix w).2
                ∧ stop w' = false ∧ all_synced w' = true
  | WaitStopped w' evs rest =>
      ∃ prefix, sched = prefix ++ rest
                ∧ w' = (run prefix w).1 ∧ evs = others ++ (run prefix w).2
                ∧ stop w' = true
  | WaitPending w' evs =>
      w' = (run sched w).1 ∧ evs = others ++ (run sched w).2
      ∧ stop w' = false ∧ all_synced w' = false
  end.
Proof.
  revert w others. induction sched as [|a rest IH]; intros w others; simpl.
  - destruct (stop w) eqn:Hstop.
    { exists []. simpl. by rewrite app_nil_r. }
    destruct (all_synced w) eqn:Hsync.
    { exists []. simpl. by rewrite app_nil_r. }
    by rewrite app_nil_r.
  - destruct (stop w) eqn:Hstop.
    { exists []. simpl. by rewrite app_nil_r. }
    destruct (all_synced w) eqn:Hsync.
    { exists []. simpl. by rewrite app_nil_r. }
    destruct (act a w) as [w1 evs1] eqn:Hact.
    specialize (IH w1 (others ++ evs1)).
    destruct (run rest w1) as [w2 evs2] eqn:Hrun. simpl in *.
    destruct (WaitForCacheSync rest w1 (others ++ evs1)) as [w' evs r|w' evs r|w' evs].
    + destruct IH as (prefix & -> & -> & -> & ? & ?).
      exists (a :: prefix). rewrite run_cons, Hact. simpl.
      by rewrite app_assoc.
    + destruct IH as (prefix & -> & -> & -> & ?).
      exists (a :: prefix). rewrite run_cons, Hact. simpl.
      by rewrite app_assoc.
    + destruct IH as (-> & -> & ? & ?). by rewrite app_assoc.
Qed.

Lemma listeners_launch (w : Watcher) (b : bool) :
  listeners (launch (with_started w b)) = listeners w.
Proof.
  unfold listeners, launch. simpl. rewrite <- map_fmap_compose.
  apply map_eq; intros k. rewrite !lookup_fmap.
  by destruct (watches w !! k).
Qed.

Lemma invoke_all_notifications (w : Watcher) :
  all_synced w = true →
  notifications (invoke_all w) = map_to_list (listeners w).
Proof.
  intros Hs. rewrite all_synced_spec in Hs.
  unfold invoke_all, listeners. rewrite map_to_list_fmap.
  assert (∀ ke, ke ∈ map_to_list (watches w) → hasSynced ke.2 = true) as Hall.
  { intros [k e] Hin%elem_of_map_to_list. by apply (Hs k). }
  induction (map_to_list (watches w)) as [|[k e] rest IH]; [done|].
  rewrite !fmap_cons. cbn [mjoin list_join]. rewrite notifications_app.
  change (prod_map id listener (k, e) :: (prod_map id listener <$> rest))
    with ([prod_map id listener (k, e)] ++ (prod_map id listener <$> rest)).
  f_equal.
  - pose proof (Hall (k, e) (list_elem_of_here _ _)) as He. simpl in He.
    unfold invoke. simpl. by rewrite He.
  - apply IH. intros ke Hin. apply Hall. by apply list_elem_of_further.
Qed.

Lemma filter_key_NoDup {A} (l : list (watchKey * A)) (k : watchKey) (v : A) :
  NoDup l.*1 → (k, v) ∈ l →
  filter (λ kl, kl.1 = k) l = [(k, v)].
Proof.
  induction l as [|[k' v'] l IH]; simpl; intros Hnd Hin.
  - by apply elem_of_nil in Hin.
  - apply NoDup_cons in Hnd as [Hk' Hnd].
    assert (∀ v0, (k', v0) ∉ l) as Hfresh.
    { intros v0 Hv0. apply Hk'. apply list_elem_of_fmap. by exists (k', v0). }
    apply elem_of_cons in Hin as [Heq|Hin].
    + simplify_eq. rewrite filter_cons_True by done. f_equal.
      clear IH Hk' Hnd. induction l as [|[k2 v2] l IH]; [done|].
      rewrite filter_cons_False.
      * apply IH. intros v0 Hv0. apply (Hfresh v0). by apply list_elem_of_further.
      * simpl. intros ->. apply (Hfresh v2), list_elem_of_here.
    + rewrite filter_cons_False; [by apply IH|].
      simpl. intros ->. by apply (Hfresh v).
Qed.

(** How a first call of [Start] can end, and what it has done by then. *)
Lemma Start_outcome_cases (sched : list Activity) (w : Watcher) :
  started w = false →
  match Start sched w with
  | Returned w' own others rest =>
      all_synced w' = true
      ∧ notifications own = map_to_list (listeners w)
      ∧ ∀ k e, watches w !! k = Some e →
          filter (λ kl, kl.1 = k) (notifications own) = [(k, listener e)]
  | Fatal w' own others =>
      stop w' = true ∧ notifications own = []
  | Waiting w' own others =>
      all_synced w' = false ∧ notifications own = []
  end.
Proof.
  intros Hst. unfold Start. rewrite Hst.
  pose proof (WaitForCacheSync_run sched (launch (with_started w true)) []) as H.
  destruct (WaitForCacheSync sched (launch (with_started w true)) [])
    as [w' evs r|w' evs r|w' evs].
  - destruct H as (prefix & _ & Hw' & _ & _ & Hsync).
    assert (notifications ([Lock; Unlock] ++ invoke_all w')
            = map_to_list (listeners w)) as Hn.
    { rewrite notifications_app. simpl.
      rewrite invoke_all_notifications by done.
      by rewrite Hw', run_listeners, listeners_launch. }
    split; [done|]. split; [done|]. intros k e Hk. rewrite Hn.
    apply filter_key_NoDup; [apply NoDup_fst_map_to_list|].
    apply elem_of_map_to_list. unfold listeners. by rewrite lookup_fmap, Hk.
  - destruct H as (prefix & _ & _ & _ & Hstop). done.
  - destruct H as (_ & _ & _ & Hsync). done.
Qed.

Example Start_empty_cluster :
  ∃ w', Start [InitialListDone example.pods_everywhere;
               InitialListDone example.nodes_everywhere]
          example.empty_cluster
        = Returned w'
            [Lock; Unlock;
             Lock; Notify example.nodes_everywhere 1; Unlock;
             Lock; Notify example.pods_everywhere 2; Unlock]
            [] []
        ∧ List w' "pods" = [] ∧ List w' "nodes" = [].
Proof. eexists. vm_compute. done. Qed.

Lemma act_entry_inv (a : Activity) (w : Watcher) (k : watchKey) (e1 : watch) :
  watches (act a w).1 !! k = Some e1 →
  ∃ e, watches w !! k = Some e
       ∧ (e1 = e ∨ (∃ s, e1 = with_store e s) ∨ e1 = with_hasSynced e true).
Proof.
  intros H1. destruct (watches w !! k) as [e|] eqn:Hk.
  - exists e. split; [done|].
    destruct (act_entry a w k e Hk) as [H|[[s H]|H]];
      rewrite H in H1; simplify_eq; eauto.
  - by rewrite (act_entry_None a w k Hk) in H1.
Qed.

Lemma act_stop (a : Activity) (w : Watcher) :
  a ≠ CloseStop → stop (act a w).1 = stop w.
Proof.
  intros Ha. destruct a as [k d obj|k|server res|]; simpl; [| | |done].
  - destruct (watches w !! k) as [e|]; [|done].
    destruct (running e && dynamic.serves (watched e) obj); [|done].
    by destruct (process k e d obj).
  - destruct (watches w !! k) as [e|]; [|done]. by destruct (running e).
  - by destruct (UpdateStatus_shape server w res)
      as (out & evs & _ & [->|(k' & e' & s & Hk' & ->)]).
Qed.

Lemma act_all_running (a : Activity) (w : Watcher) :
  all_running w → all_running (act a w).1.
Proof.
  intros Hr k e1 (e & Hk & He)%act_entry_inv.
  specialize (Hr k e Hk).
  destruct He as [->|[[s ->]| ->]]; done.
Qed.

Lemma launch_all_running (w : Watcher) : all_running (launch w).
Proof.
  intros k e. unfold launch. simpl. rewrite lookup_fmap.
  destruct (watches w !! k); simpl; [|done]. by intros [= <-].
Qed.

Lemma act_InitialListDone (w : Watcher) (k : watchKey) (e1 : watch) :
  all_running w →
  watches (act (InitialListDone k) w).1 !! k = Some e1 → hasSynced e1 = true.
Proof.
  intros Hr. simpl. destruct (watches w !! k) as [e|] eqn:Hk.
  - rewrite (Hr k e Hk). simpl. rewrite lookup_insert_eq. by intros [= <-].
  - simpl. by rewrite Hk.
Qed.

(** If nobody closes the stop channel and every informer that has not
    synced completes its first listing at some point of the schedule, the
    wait ends with every informer synced. *)
Lemma WaitForCacheSync_completes (sched : list Activity) (w : Watcher)
    (others : list Event) :
  stop w = false →
  CloseStop ∉ sched →
  all_running w →
  (∀ k e, watches w !! k = Some e → hasSynced e = false →
          InitialListDone k ∈ sched) →
  ∃ w' evs rest, WaitForCacheSync sched w others = WaitSynced w' evs rest.
Proof.
  revert w others. induction sched as [|a rest IH];
    intros w others Hstop Hclose Hrun Hdone; simpl; rewrite Hstop.
  - destruct (all_synced w) eqn:Hs; [eauto|].
    destruct (not_all_synced w Hs) as (k & e & Hk & He).
    pose proof (Hdone k e Hk He) as Hin. by apply elem_of_nil in Hin.
  - destruct (all_synced w) eqn:Hs; [eauto|].
    assert (a ≠ CloseStop) as Ha.
    { intros ->. apply Hclose, list_elem_of_here. }
    pose proof (act_stop a w Ha) as Hstop1.
    pose proof (act_all_running a w Hrun) as Hrun1.
    assert (∀ k e, watches (act a w).1 !! k = Some e → hasSynced e = false →
                   InitialListDone k ∈ rest) as Hdone1.
    { intros k e1 Hk1 He1.
      destruct (act_entry_inv a w k e1 Hk1) as (e & Hk & Hcases).
      assert (hasSynced e = false) as He.
      { destruct Hcases as [->|[[s ->]| ->]]; done. }
      specialize (Hdone k e Hk He).
      apply elem_of_cons in Hdone as [<-|Hin]; [|done].
      rewrite (act_InitialListDone w k e1 Hrun Hk1) in He1. done. }
    destruct (act a w) as [w1 evs1]. simpl in *.
    apply IH; try done; [congruence|].
    intros Hin. apply Hclose. by apply list_elem_of_further.
Qed.

(** [Start] returns: a first call on a watcher whose stop channel is open
    gets past the barrier once every registered informer has completed
    its first listing. *)
Lemma Start_returns (sched : list Activity) (w : Watcher) :
  started w = false →
  stop w = false →
  CloseStop ∉ sched →
  (∀ k, is_Some (watches w !! k) → InitialListDone k ∈ sched) →
  ∃ w' own others rest, Start sched w = Returned w' own others rest.
Proof.
  intros Hst Hstop Hclose Hdone. unfold Start. rewrite Hst.
  destruct (WaitForCacheSync_completes sched (launch (with_started w true)) [])
    as (w' & evs & rest & ->); try done; [apply launch_all_running| |eauto].
  intros k e. unfold launch. simpl. rewrite lookup_fmap.
  destruct (watches w !! k) eqn:Hk; [|done]. intros _ _. apply Hdone. eauto.
Qed.

Lemma Start_started (sched : list Activity) (w : Watcher) :
  started (watcher_of (Start sched w)) = true.
Proof.
  unfold Start. destruct (started w) eqn:Hst; [done|].
  pose proof (WaitForCacheSync_run sched (launch (with_started w true)) []) as H.
  destruct (WaitForCacheSync sched (launch (with_started w true)) [])
    as [w' evs r|w' evs r|w' evs]; simpl.
  - destruct H as (prefix & _ & -> & _). by rewrite run_started.
  - destruct H as (prefix & _ & -> & _). by rewrite run_started.
  - destruct H as (-> & _). by rewrite run_started.
Qed.

(** C8.  [Start] is idempotent.  Take the watcher any call of [Start]
    leaves, however that call ended, and let the informers go on for any
    while: a further call returns at once, having only taken and released
    the lock.  It launches nothing, consumes nothing of the schedule (it
    does not wait), calls no listener, and returns the watcher it was
    given. *)
Theorem Start_idempotent (sched later sched' : list Activity) (w : Watcher) :
  Start sched' (run later (watcher_of (Start sched w))).1
  = Returned (run later (watcher_of (Start sched w))).1 [Lock; Unlock] [] sched'.
Proof.
  unfold Start at 1.
  by rewrite run_started, Start_started.
Qed.

Lemma launch_synced (w : Watcher) (k : watchKey) (e : watch) :
  watches w !! k = Some e → hasSynced e = true →
  ∃ e', watches (launch (with_started w true)) !! k = Some e'
        ∧ hasSynced e' = true.
Proof.
  intros Hk Hs. exists (with_running e true). split; [|done].
  unfold launch. simpl. by rewrite lookup_fmap, Hk.
Qed.

Lemma Start_synced_mono (sched : list Activity) (w : Watcher) (k : watchKey)
    (e : watch) :
  watches w !! k = Some e → hasSynced e = true →
  ∃ e', watches (watcher_of (Start sched w)) !! k = Some e'
        ∧ hasSynced e' = true.
Proof.
  intros Hk Hs. unfold Start. destruct (started w); [simpl; eauto|].
  destruct (launch_synced w k e Hk Hs) as (e1 & Hk1 & Hs1).
  pose proof (WaitForCacheSync_run sched (launch (with_started w true)) []) as H.
  destruct (WaitForCacheSync sched (launch (with_started w true)) [])
    as [w' evs r|w' evs r|w' evs]; simpl.
  - destruct H as (prefix & _ & -> & _). by apply (run_synced_mono _ _ k e1).
  - destruct H as (prefix & _ & -> & _). by apply (run_synced_mono _ _ k e1).
  - destruct H as (-> & _). by apply (run_synced_mono _ _ k e1).
Qed.

Lemma invoke_all_notifies_synced (w : Watcher) (k : watchKey) (l : Listener) :
  Notify k l ∈ invoke_all w →
  ∃ e, watches w !! k = Some e ∧ hasSynced e = true.
Proof.
  unfold invoke_all. intros (evs & Hin & Hevs)%list_elem_of_join.
  apply list_elem_of_fmap in Hevs as ([k0 e0] & -> & Hke).
  apply elem_of_map_to_list in Hke. simpl in Hin.
  destruct (invoke_cases k0 e0) as [[_ Hi]|[Hs Hi]]; rewrite Hi in Hin.
  - by apply Notify_not_in_silent in Hin.
  - apply Notify_in_call in Hin as [-> _]. eauto.
Qed.

Lemma Start_notifies_synced (sched : list Activity) (w : Watcher)
    (k : watchKey) (l : Listener) :
  Notify k l ∈ events_of (Start sched w) →
  ∃ e, watches (watcher_of (Start sched w)) !! k = Some e ∧ hasSynced e = true.
Proof.
  unfold Start. destruct (started w).
  { simpl. by intros ?%Notify_not_in_silent. }
  pose proof (WaitForCacheSync_run sched (launch (with_started w true)) []) as H.
  destruct (WaitForCacheSync sched (launch (with_started w true)) [])
    as [w' evs r|w' evs r|w' evs]; simpl.
  - destruct H as (prefix & _ & -> & -> & _ & _). simpl.
    rewrite !elem_of_cons, !elem_of_app.
    intros [H|[H|[H|H]]]; [discriminate H..| |].
    + by apply (invoke_all_notifies_synced _ k l).
    + by apply (run_notifies_synced _ _ k l).
  - destruct H as (prefix & _ & -> & -> & _). simpl.
    rewrite !elem_of_cons.
    intros [H|[H|H]]; [discriminate H..|].
    by apply (run_notifies_synced _ _ k l).
  - destruct H as (-> & -> & _). simpl.
    rewrite !elem_of_cons.
    intros [H|[H|H]]; [discriminate H..|].
    by apply (run_notifies_synced _ _ k l).
Qed.

(** C10.  The listener of an entry is never called before the entry's
    informer has synced.  Take any execution: activity of the other
    goroutines, a call of [Start], more activity.  If the entry is still
    unsynced at the end, and so was throughout, no call of its listener is
    anywhere in the trace.  Every handler goes through [invoke], which
    tests [hasSynced] between taking and releasing the lock. *)
Theorem listener_only_after_sync (pre sched post : list Activity) (w : Watcher)
    (k : watchKey) (e' : watch) (l : Listener) :
  watches (run post (watcher_of (Start sched (run pre w).1))).1 !! k = Some e' →
  hasSynced e' = false →
  Notify k l ∉ (run pre w).2
               ++ events_of (Start sched (run pre w).1)
               ++ (run post (watcher_of (Start sched (run pre w).1))).2.
Proof.
  intros Hk Hs. rewrite !elem_of_app. intros [Hin|[Hin|Hin]].
  - destruct (run_notifies_synced pre w k l Hin) as (e0 & Hk0 & Hs0).
    destruct (Start_synced_mono sched _ k e0 Hk0 Hs0) as (e1 & Hk1 & Hs1).
    destruct (run_synced_mono post _ k e1 Hk1 Hs1) as (e2 & Hk2 & Hs2).
    congruence.
  - destruct (Start_notifies_synced sched _ k l Hin) as (e1 & Hk1 & Hs1).
    destruct (run_synced_mono post _ k e1 Hk1 Hs1) as (e2 & Hk2 & Hs2).
    congruence.
  - destruct (run_notifies_synced post _ k l Hin) as (e2 & Hk2 & Hs2).
    congruence.
Qed.

Lemma listener_only_after_sync_witness :
  Notify example.pods_everywhere 1
  ∉ (run [] (Watch (NewWatcher example.cluster) "pods" 1).1).2
    ++ events_of (Start [Deliver example.pods_everywhere cache.Sync example.web_a1]
                    (run [] (Watch (NewWatcher example.cluster) "pods" 1).1).1)
    ++ (run [Deliver example.pods_everywhere cache.Updated example.web_a2;
             Deliver example.pods_everywhere cache.Deleted example.web_a2;
             Deliver example.pods_everywhere cache.Added example.web_b]
          (watcher_of
             (Start [Deliver example.pods_everywhere cache.Sync example.web_a1]
                (run [] (Watch (NewWatcher example.cluster) "pods" 1).1).1))).2.
Proof.
  eapply (listener_only_after_sync [] _ _ _ example.pods_everywhere).
  - vm_compute. reflexivity.
  - reflexivity.
Defined.

(** ** Modified events *)

(** C2, as the code has it.  For a modified event on an entry that stores
    an object under the event's key, the listener is called if and only if
    the incoming version token differs from the stored one and the
    entry's informer has synced; no other listener is called; with equal
    tokens the handler does nothing at all. *)
Theorem modified_event_notifies (k : watchKey) (e : watch) (old new : Resource) :
  cache.Get (store e) new = Some old →
  (Notify k (listener e) ∈ (process k e cache.Updated new).2
   ↔ unstructured.GetResourceVersion new ≠ unstructured.GetResourceVersion old
     ∧ hasSynced e = true)
  ∧ (∀ k' l, Notify k' l ∈ (process k e cache.Updated new).2 →
             k' = k ∧ l = listener e)
  ∧ (unstructured.GetResourceVersion new = unstructured.GetResourceVersion old →
     (process k e cache.Updated new).2 = []).
Proof.
  intros Hold. unfold process. rewrite Hold. simpl.
  split; [|split].
  - destruct (UpdateFunc_cases k e old new) as [[Heq ->]|[Hne ->]].
    + split; [by intros ?%elem_of_nil|]. intros [Hne _]. by destruct Hne.
    + destruct (invoke_cases k e) as [[Hs ->]|[Hs ->]].
      * split; [by intros ?%Notify_not_in_silent|]. intros [_ ?]. congruence.
      * split; [done|]. intros _. by apply Notify_in_call.
  - intros k' l.
    destruct (UpdateFunc_cases k e old new) as [[Heq ->]|[Hne ->]].
    + by intros ?%elem_of_nil.
    + destruct (invoke_cases k e) as [[Hs ->]|[Hs ->]].
      * by intros ?%Notify_not_in_silent.
      * by intros ?%Notify_in_call.
  - intros Heq. destruct (UpdateFunc_cases k e old new) as [[_ ->]|[Hne _]];
      [done|]. by destruct Hne.
Qed.

Lemma modified_event_notifies_witness :
  Notify example.nodes_everywhere 1
  ∈ (process example.nodes_everywhere example.nodes_entry
       cache.Updated example.node1').2.
Proof.
  destruct (modified_event_notifies example.nodes_everywhere
              example.nodes_entry example.node1 example.node1') as [H _].
  - vm_compute. reflexivity.
  - apply H. split; [vm_compute; discriminate | reflexivity].
Defined.

(** C2, as stated, fails: at the barrier the entry holds version 1 of a
    pod and is not synced; the modified event with version 2 carries a
    different token, and the listener is not called. *)
Lemma modified_before_sync_is_silent :
  ∃ e, watches example.at_barrier !! example.pods_everywhere = Some e
       ∧ ¬ modified_fires_iff_token_differs example.pods_everywhere e
             example.web_a2.
Proof.
  eexists. split; [vm_compute; reflexivity|].
  intros H. specialize (H example.web_a1).
  destruct H as [_ H]; [vm_compute; reflexivity|].
  assert (Hne : unstructured.GetResourceVersion example.web_a2
                ≠ unstructured.GetResourceVersion example.web_a1)
    by (vm_compute; discriminate).
  specialize (H Hne). vm_compute in H.
  by apply Notify_not_in_silent in H.
Qed.

Example nodes_entry_reached :
  watches example.nodes_running !! example.nodes_everywhere
  = Some example.nodes_entry.
Proof. vm_compute. reflexivity. Qed.

(** ** Status updates *)

(** C4.  [UpdateStatus] has three outcomes.  If the key made of the
    resource's kind and the resource's own namespace is not registered, it
    returns the no-watch error, calls nobody and leaves the watcher as it
    was.  If the server rejects the update, it returns the server's error
    after that one call, the watcher, and so every store, unchanged.  If
    the server accepts, it returns the server's object after that one
    call, and the store of the entry holds that object under its key,
    nothing else in the store or in the other entries having changed. *)
Theorem UpdateStatus_outcomes
    (server : dynamic.ResourceInterface → Resource → Resource + error)
    (w : Watcher) (res : Resource) :
  let g := gvr_of (resolve (client w) (Canonicalize (client w) (Res.Kind res))) in
  let k := {| GroupVersionResource := g;
              Namespace := unstructured.GetNamespace res |} in
  match watches w !! k with
  | None => UpdateStatus server w res = (w, inr (ErrNoWatch g), [])
  | Some e =>
      let target :=
        dynamic.Namespace (resource e) (unstructured.GetNamespace res) in
      match server target res with
      | inr err =>
          UpdateStatus server w res = (w, inr err, [CallUpdateStatus target res])
      | inl result =>
          (UpdateStatus server w res).1.2 = inl result
          ∧ (UpdateStatus server w res).2 = [CallUpdateStatus target res]
          ∧ watches (UpdateStatus server w res).1.1 !! k
            = Some (with_store e (<[cache.MetaNamespaceKeyFunc result := result]>
                                    (store e)))
          ∧ result ∈ ListInternal (UpdateStatus server w res).1.1 g
                       (unstructured.GetNamespace res)
          ∧ ∀ k', k' ≠ k →
              watches (UpdateStatus server w res).1.1 !! k' = watches w !! k'
      end
  end.
Proof.
  intros g k. unfold UpdateStatus. fold g. fold k.
  destruct (watches w !! k) as [e|] eqn:Hk; [|done].
  simpl. destruct (server _ res) as [result|err]; [|done]. simpl.
  split; [done|]. split; [done|].
  split; [apply lookup_insert_eq|]. split.
  - unfold ListInternal. fold k. cbn [watches with_watches].
    rewrite lookup_insert_eq. cbn [store with_store].
    unfold cache.List, cache.Update. apply list_elem_of_fmap.
    exists (cache.MetaNamespaceKeyFunc result, result). split; [done|].
    apply elem_of_map_to_list, lookup_insert_eq.
  - intros k' Hne. by apply lookup_insert_ne.
Qed.

Lemma UpdateStatus_success (server : dynamic.ResourceInterface → Resource → Resource + error)
    (w w' : Watcher) (res result : Resource) (evs : list Event) :
  UpdateStatus server w res = (w', inl result, evs) →
  ∃ e, watches w' !!
         {| GroupVersionResource :=
              gvr_of (resolve (client w) (Canonicalize (client w) (Res.Kind res)));
            Namespace := unstructured.GetNamespace res |}
       = Some (with_store e (cache.Update (store e) result)).
Proof.
  unfold UpdateStatus.
  destruct (watches w !! _) as [e|] eqn:Hk; [|done].
  destruct (server _ res) as [r|err]; [|done].
  intros [= <- <- <-]. exists e. simpl. apply lookup_insert_eq.
Qed.

(** C5, as the code has it.  After a successful [UpdateStatus], a modified event for the same
    object (the same store key) that carries the version token of the
    returned object makes the informer of the entry the update went
    through call no listener: the handler finds the returned object in the
    store, sees equal tokens and does nothing, not even take the lock. *)
Theorem UpdateStatus_echo_is_silent
    (server : dynamic.ResourceInterface → Resource → Resource + error)
    (w w' : Watcher) (res result echo : Resource) (evs : list Event) :
  UpdateStatus server w res = (w', inl result, evs) →
  cache.MetaNamespaceKeyFunc echo = cache.MetaNamespaceKeyFunc result →
  unstructured.GetResourceVersion echo = unstructured.GetResourceVersion result →
  let k := {| GroupVersionResource :=
                gvr_of (resolve (client w) (Canonicalize (client w) (Res.Kind res)));
              Namespace := unstructured.GetNamespace res |} in
  (∃ e', watches w' !! k = Some e'
         ∧ cache.Get (store e') echo = Some result
         ∧ (process k e' cache.Updated echo).2 = [])
  ∧ (act (Deliver k cache.Updated echo) w').2 = [].
Proof.
  intros Hup Hkey Hrv k.
  destruct (UpdateStatus_success server w w' res result evs Hup) as (e & He).
  fold k in He.
  assert (cache.Get (store (with_store e (cache.Update (store e) result))) echo
          = Some result) as Hget.
  { unfold cache.Get, cache.Update. simpl. rewrite Hkey. apply lookup_insert_eq. }
  assert ((process k (with_store e (cache.Update (store e) result))
             cache.Updated echo).2 = []) as Hsilent.
  { unfold process. rewrite Hget. simpl.
    destruct (UpdateFunc_cases k (with_store e (cache.Update (store e) result))
                result echo) as [[_ ->]|[Hne _]]; [done|].
    by destruct Hne. }
  split; [eauto|].
  unfold act. rewrite He.
  destruct (running _ && dynamic.serves _ echo); [|done].
  destruct (process k _ cache.Updated echo) as [e'' evs'']. by simpl in *.
Qed.

Lemma UpdateStatus_echo_is_silent_witness :
  (act (Deliver example.nodes_everywhere cache.Updated example.node1')
     (UpdateStatus example.accepting example.nodes_running example.node1).1.1).2
  = [].
Proof.
  refine (proj2 (UpdateStatus_echo_is_silent example.accepting
                   example.nodes_running
                   (UpdateStatus example.accepting example.nodes_running
                      example.node1).1.1
                   example.node1 example.node1' example.node1'
                   [CallUpdateStatus
                      (dynamic.Resource (gvr_of (example.resolver "nodes")))
                      example.node1]
                   _ _ _)).
  - vm_compute. reflexivity.
  - reflexivity.
  - reflexivity.
Defined.

(** The same event without the update before it does call the listener. *)
Example modified_without_update_notifies :
  (act (Deliver example.nodes_everywhere cache.Updated example.node1')
     example.nodes_running).2
  = [Lock; Notify example.nodes_everywhere 1; Unlock].
Proof. vm_compute. reflexivity. Qed.

(** ** Sharing between the store and the results of queries *)

(** The queries over memory are the queries over the watcher: read
    through the addresses, they return what the value-level functions
    return. *)
Lemma shared_ListInternal_represents (μ : shared.Memory) (w : Watcher)
    (g : schema.GroupVersionResource) (ns : string) :
  shared.represents μ w →
  shared.deref (shared.heap μ) <$> shared.ListInternal μ g ns
  = ListInternal w g ns.
Proof.
  intros Hrep. unfold shared.ListInternal, ListInternal.
  specialize (Hrep {| GroupVersionResource := g; Namespace := ns |}).
  unfold shared.contents in Hrep.
  destruct (shared.cells μ !! _) as [s|]; destruct (watches w !! _) as [e|];
    simplify_eq/=; [|done].
  unfold cache.List. rewrite <- Hrep, map_to_list_fmap.
  rewrite <- !list_fmap_compose. done.
Qed.

Lemma shared_Get_scan_represents (h : gmap shared.addr Resource)
    (resources : list shared.addr) (qname : string) :
  Get_scan (shared.deref h <$> resources) qname
  = match shared.Get_scan h resources qname with
    | Some a => shared.deref h a
    | None => ∅
    end.
Proof.
  induction resources as [|a rest IH]; simpl; [done|].
  by destruct (EqualFold (Res.QName (shared.deref h a)) qname).
Qed.

Lemma shared_Get_represents (μ : shared.Memory) (w : Watcher)
    (kind qname : string) :
  shared.represents μ w →
  shared.deref (shared.heap (shared.Get (client w) μ kind qname).2)
    (shared.Get (client w) μ kind qname).1
  = Get w kind qname.
Proof.
  intros Hrep. unfold Get, List, shared.Get, shared.List.
  rewrite <- (shared_ListInternal_represents μ w _ _ Hrep).
  rewrite shared_Get_scan_represents.
  destruct (shared.Get_scan _ _ _); simpl; [done|].
  unfold shared.deref. by rewrite lookup_insert_eq.
Qed.

Lemma shared_Get_scan_listed (h : gmap shared.addr Resource)
    (resources : list shared.addr) (qname : string) (a : shared.addr) :
  shared.Get_scan h resources qname = Some a → a ∈ resources.
Proof.
  induction resources as [|a' rest IH]; simpl; [done|].
  destruct (EqualFold _ qname).
  - intros [= ->]. apply list_elem_of_here.
  - intros H. by apply list_elem_of_further, IH.
Qed.

Lemma shared_ListInternal_cell (μ : shared.Memory)
    (g : schema.GroupVersionResource) (ns : string) (a : shared.addr) :
  a ∈ shared.ListInternal μ g ns →
  ∃ s key, shared.cells μ !! {| GroupVersionResource := g; Namespace := ns |}
           = Some s
           ∧ s !! key = Some a.
Proof.
  unfold shared.ListInternal.
  destruct (shared.cells μ !! _) as [s|]; [|by intros ?%elem_of_nil].
  intros ([key a'] & -> & Hin)%list_elem_of_fmap.
  exists s, key. split; [done|]. by apply elem_of_map_to_list.
Qed.

(** C9, as the code has it.  A resource returned by [List], or by [Get]
    when an entry matches, is the mapping the store itself holds, not a
    copy: after an assignment through it, the store holds the changed
    mapping under the same key.  Only the empty Resource that [Get]
    returns when nothing matches is fresh, and assignments through it
    leave every store as it was. *)
Theorem query_results_are_shared (c : Client) (μ : shared.Memory)
    (kind qname field : string) (v : value) :
  shared.closed μ →
  (∀ a, a ∈ shared.List c μ kind →
     ∃ s key r,
       shared.cells μ !! {| GroupVersionResource :=
                              gvr_of (resolve c (Canonicalize c kind));
                            Namespace := "" |} = Some s
       ∧ s !! key = Some a
       ∧ shared.heap μ !! a = Some r
       ∧ shared.contents (shared.assign μ a field v)
           {| GroupVersionResource := gvr_of (resolve c (Canonicalize c kind));
              Namespace := "" |} ≫= (.!! key)
         = Some (<[field := v]> r))
  ∧ ((shared.Get c μ kind qname).1 ∈ shared.List c μ kind
     ∧ (shared.Get c μ kind qname).2 = μ
     ∨ shared.Get_scan (shared.heap μ) (shared.List c μ kind) qname = None
       ∧ shared.heap (shared.Get c μ kind qname).2
           !! (shared.Get c μ kind qname).1 = Some ∅
       ∧ ∀ k, shared.contents
                (shared.assign (shared.Get c μ kind qname).2
                   (shared.Get c μ kind qname).1 field v) k
              = shared.contents μ k).
Proof.
  intros Hclosed. split.
  - intros a Ha. unfold shared.List in Ha.
    destruct (shared_ListInternal_cell μ _ _ a Ha) as (s & key & Hs & Hkey).
    destruct (Hclosed _ s key a Hs Hkey) as [r Hr].
    exists s, key, r. repeat split; try done.
    unfold shared.contents, shared.assign. simpl. rewrite Hs. simpl.
    rewrite lookup_fmap, Hkey. simpl. unfold shared.deref.
    by rewrite lookup_alter_eq, Hr.
  - unfold shared.Get.
    destruct (shared.Get_scan _ _ qname) as [a|] eqn:Hscan; simpl.
    + left. split; [|done]. by apply shared_Get_scan_listed in Hscan.
    + right. split; [done|]. split; [apply lookup_insert_eq|].
      intros k. unfold shared.contents. simpl.
      destruct (shared.cells μ !! k) as [s|] eqn:Hs; [|done]. simpl. f_equal.
      apply map_eq; intros key. rewrite !lookup_fmap.
      destruct (s !! key) as [a|] eqn:Hkey; [|done]. simpl. f_equal.
      assert (fresh (dom (shared.heap μ)) ≠ a) as Hne.
      { intros <-. destruct (Hclosed k s key _ Hs Hkey) as [r Hr].
        apply (is_fresh (dom (shared.heap μ))). apply elem_of_dom. eauto. }
      unfold shared.deref.
      by rewrite lookup_alter_ne, lookup_insert_ne.
Qed.

Lemma one_pod_closed : shared.closed example.one_pod.
Proof.
  intros k s key a. unfold example.one_pod. simpl.
  intros [<- <-]%lookup_singleton_Some [<- <-]%lookup_singleton_Some.
  rewrite lookup_singleton_eq. eauto.
Qed.

Lemma query_results_are_shared_witness :
  shared.closed example.one_pod
  ∧ ∃ s key r,
      shared.cells example.one_pod !! example.pods_everywhere = Some s
      ∧ s !! key = Some 1%positive
      ∧ shared.heap example.one_pod !! 1%positive = Some r
      ∧ shared.contents
          (shared.assign example.one_pod 1%positive "status" (VString "Ready"))
          example.pods_everywhere ≫= (.!! key)
        = Some (<["status" := VString "Ready"]> r).
Proof.
  split; [exact one_pod_closed|].
  apply (proj1 (query_results_are_shared example.cluster example.one_pod
                  "pods" "web.ns-a" "status" (VString "Ready") one_pod_closed)).
  vm_compute. apply list_elem_of_here.
Defined.

Example assignment_reaches_the_store :
  shared.contents
    (shared.assign example.one_pod 1%positive "status" (VString "Ready"))
    example.pods_everywhere ≫= (.!! "ns-a/web")
  = Some (<["status" := VString "Ready"]> example.web_a1).
Proof. vm_compute. reflexivity. Qed.

(** C9, as stated, fails: an assignment through the resource that
    [ListInternal] returned changes what the store holds. *)
Lemma listed_resource_is_not_a_copy :
  ¬ shared.independent_copies example.one_pod.
Proof.
  intros H.
  specialize (H example.pods "" 1%positive "status" (VString "Ready")
                example.pods_everywhere).
  assert (Hin : 1%positive ∈ shared.ListInternal example.one_pod example.pods "")
    by (vm_compute; apply list_elem_of_here).
  specialize (H Hin).
  apply (f_equal (λ o : option (gmap string Resource),
                    s ← o; r ← s !! "ns-a/web"; (r : Resource) !! "status")) in H.
  vm_compute in H. discriminate H.
Qed.

(** * Further properties of the watcher *)

(** ** Registration *)

(** X1.  Registering a key again replaces the entry: two registrations of
    the same collection and namespace leave the watcher exactly as the
    second alone would, so only the last listener is kept. *)
Theorem WatchInternal_last_wins (w : Watcher) (g : schema.GroupVersionResource)
    (ns : string) (l1 l2 : Listener) :
  WatchInternal (WatchInternal w g ns l1).1 g ns l2 = WatchInternal w g ns l2.
Proof.
  unfold WatchInternal. destruct (config_error (client w)) eqn:Hc; simpl.
  - by rewrite Hc.
  - rewrite Hc. unfold with_watches. simpl. by rewrite insert_insert_eq.
Qed.

(** X2.  Registrations of different keys commute: the order of the calls
    does not matter to the watcher they build. *)
Theorem WatchInternal_commute (w : Watcher)
    (g1 g2 : schema.GroupVersionResource) (ns1 ns2 : string) (l1 l2 : Listener) :
  {| GroupVersionResource := g1; Namespace := ns1 |}
  ≠ {| GroupVersionResource := g2; Namespace := ns2 |} →
  (WatchInternal (WatchInternal w g1 ns1 l1).1 g2 ns2 l2).1
  = (WatchInternal (WatchInternal w g2 ns2 l2).1 g1 ns1 l1).1.
Proof.
  intros Hne. unfold WatchInternal.
  destruct (config_error (client w)) eqn:Hc; simpl; rewrite Hc; simpl; [done|].
  unfold with_watches. simpl. f_equal. by apply insert_insert_ne.
Qed.

Lemma WatchInternal_commute_witness :
  (WatchInternal (WatchInternal (NewWatcher example.cluster)
                    example.pods "ns-a" 1).1 example.pods "" 2).1
  = (WatchInternal (WatchInternal (NewWatcher example.cluster)
                      example.pods "" 2).1 example.pods "ns-a" 1).1.
Proof.
  apply (WatchInternal_commute (NewWatcher example.cluster)
           example.pods example.pods "ns-a" "" 1 2).
  intros H. discriminate H.
Defined.

(** X3.  When the dynamic client cannot be built from the client's
    configuration, [Watch], [WatchNamespace] and [WatchInternal] return
    that error and register nothing: the watcher is the one given. *)
Theorem registration_fails_cleanly (w : Watcher) (err : error)
    (g : schema.GroupVersionResource) (ns resources : string) (l : Listener) :
  config_error (client w) = Some err →
  WatchInternal w g ns l = (w, Some err)
  ∧ WatchNamespace w ns resources l = (w, Some err)
  ∧ Watch w resources l = (w, Some err).
Proof.
  intros Hc. unfold Watch, WatchNamespace, WatchInternal. by rewrite Hc.
Qed.

Lemma registration_fails_cleanly_witness :
  WatchInternal (NewWatcher scenario.broken) example.pods "ns-a" 1
  = (NewWatcher scenario.broken, Some (ErrConfig "no kubeconfig"))
  ∧ WatchNamespace (NewWatcher scenario.broken) "ns-a" "pods" 1
    = (NewWatcher scenario.broken, Some (ErrConfig "no kubeconfig"))
  ∧ Watch (NewWatcher scenario.broken) "pods" 1
    = (NewWatcher scenario.broken, Some (ErrConfig "no kubeconfig")).
Proof.
  apply (registration_fails_cleanly (NewWatcher scenario.broken)
           (ErrConfig "no kubeconfig") example.pods "ns-a" "pods" 1).
  reflexivity.
Defined.

(** X4.  An entry registered for one namespace takes in objects of every
    namespace.  [WatchInternal] narrows the handle only when the given
    namespace is empty, so once the informer of an entry registered with
    any namespace is launched, an added object of any namespace is
    accepted, and [ListInternal] for that entry returns it. *)
Theorem namespaced_entry_takes_every_namespace (w w1 : Watcher)
    (g : schema.GroupVersionResource) (ns : string) (l : Listener)
    (obj : Resource) :
  WatchInternal w g ns l = (w1, None) →
  obj ∈ ListInternal
          (act (Deliver {| GroupVersionResource := g; Namespace := ns |}
                  cache.Added obj) (launch w1)).1 g ns.
Proof.
  intros HW.
  destruct (WatchInternal_handle_unscoped w w1 g ns l HW) as (e & Hk & _ & Hserves).
  assert (store e = ∅) as Hstore.
  { unfold WatchInternal in HW. destruct (config_error (client w)); [done|].
    injection HW as <-. simpl in Hk. rewrite lookup_insert_eq in Hk.
    by injection Hk as <-. }
  unfold act, launch. cbn [watches with_wg with_watches].
  rewrite lookup_fmap, Hk. cbn [fmap option_fmap option_map running with_running watched].
  rewrite Hserves. cbn [andb].
  unfold process, cache.Get. cbn [store with_running]. rewrite Hstore, lookup_empty.
  cbn [fst]. unfold ListInternal. cbn [watches with_watches].
  rewrite lookup_insert_eq. cbn [store with_store]. unfold cache.List, cache.Add.
  apply list_elem_of_fmap. exists (cache.MetaNamespaceKeyFunc obj, obj).
  split; [done|]. apply elem_of_map_to_list, lookup_insert_eq.
Qed.

Lemma namespaced_entry_takes_every_namespace_witness :
  example.web_b
  ∈ ListInternal
      (act (Deliver example.pods_in_a cache.Added example.web_b)
         (launch example.only_a)).1 example.pods "ns-a".
Proof.
  apply (namespaced_entry_takes_every_namespace (NewWatcher example.cluster)
           example.only_a example.pods "ns-a" 1 example.web_b).
  reflexivity.
Defined.

(** ** Registration after Start *)

Lemma act_dormant (a : Activity) (w : Watcher) (k : watchKey) (l : Listener) :
  dormant w k l → dormant (act a w).1 k l.
Proof.
  intros (e & Hk & Hr & Hs & Hl). destruct a as [k' d obj|k'|server res|]; simpl.
  - destruct (watches w !! k') as [e'|] eqn:Hk'; [|by exists e].
    destruct (decide (k' = k)) as [->|Hne].
    + simplify_eq. rewrite Hr. simpl. by exists e.
    + destruct (running e' && dynamic.serves (watched e') obj); [|by exists e].
      destruct (process k' e' d obj) as [e'' evs]. simpl.
      exists e. simpl. by rewrite lookup_insert_ne.
  - destruct (watches w !! k') as [e'|] eqn:Hk'; [|by exists e].
    destruct (decide (k' = k)) as [->|Hne].
    + simplify_eq. rewrite Hr. by exists e.
    + destruct (running e'); [|by exists e]. simpl.
      exists e. simpl. by rewrite lookup_insert_ne.
  - destruct (UpdateStatus_shape server w res)
      as (out & evs & _ & [->|(k' & e' & s & Hk' & ->)]); simpl; [by exists e|].
    destruct (decide (k' = k)) as [->|Hne].
    + simplify_eq. exists (with_store e s). simpl. by rewrite lookup_insert_eq.
    + exists e. simpl. by rewrite lookup_insert_ne.
  - by exists e.
Qed.

Lemma runner_exit_dormant (k' : watchKey) (w : Watcher) (k : watchKey)
    (l : Listener) :
  dormant w k l → dormant (runner_exit k' w) k l.
Proof.
  intros (e & Hk & Hr & Hs & Hl). unfold runner_exit.
  destruct (watches w !! k') as [e'|] eqn:Hk'; [|by exists e].
  destruct (decide (k' = k)) as [->|Hne].
  - simplify_eq. rewrite Hr. by exists e.
  - destruct (running e' && stop w); [|by exists e]. simpl.
    exists e. simpl. by rewrite lookup_insert_ne.
Qed.

Lemma runner_exit_started (k : watchKey) (w : Watcher) :
  started (runner_exit k w) = started w.
Proof.
  unfold runner_exit. destruct (watches w !! k) as [e|]; [|done].
  by destruct (running e && stop w).
Qed.

Lemma perform_cons (c : Call) (rest : list Call) (w : Watcher) :
  perform (c :: rest) w =
  ((perform rest (perform1 c w).1).1,
   (perform1 c w).2 ++ (perform rest (perform1 c w).1).2).
Proof.
  simpl. destruct (perform1 c w) as [w1 evs1]. simpl.
  by destruct (perform rest w1) as [w2 evs2].
Qed.

Lemma Start_when_started (sched : list Activity) (w : Watcher) :
  started w = true → Start sched w = Returned w [Lock; Unlock] [] sched.
Proof. intros H. unfold Start. by rewrite H. Qed.

(** X5.  A watch registered after [Start] under a key that was not
    registered before is never served.  [Start] launches runners only on
    its first call, so the informer of an entry registered later is never
    launched: through any further calls of [Start], activity and runner
    exits, the entry stays unlaunched and unsynced with the listener it
    was given, and no listener is called for it.  (For a key that was
    registered before, the informer launched for the earlier entry goes
    on; the statement leaves that case out.) *)
Theorem late_registration_is_never_served (w w1 : Watcher)
    (g : schema.GroupVersionResource) (ns : string) (l : Listener)
    (calls : list Call) :
  started w = true →
  watches w !! {| GroupVersionResource := g; Namespace := ns |} = None →
  WatchInternal w g ns l = (w1, None) →
  dormant (perform calls w1).1
    {| GroupVersionResource := g; Namespace := ns |} l
  ∧ ∀ l', Notify {| GroupVersionResource := g; Namespace := ns |} l'
          ∉ (perform calls w1).2.
Proof.
  intros Hst _ HW.
  assert (started w1 = true ∧
          dormant w1 {| GroupVersionResource := g; Namespace := ns |} l)
    as [Hst1 Hd].
  { unfold WatchInternal in HW. destruct (config_error (client w)); [done|].
    injection HW as <-. split; [done|].
    eexists. split; [apply lookup_insert_eq|done]. }
  clear HW Hst. revert w1 Hst1 Hd.
  induction calls as [|c rest IH]; intros w1 Hst1 Hd.
  - simpl. split; [done|]. intros l'. apply not_elem_of_nil.
  - rewrite perform_cons. simpl.
    assert (started (perform1 c w1).1 = true
            ∧ dormant (perform1 c w1).1
                {| GroupVersionResource := g; Namespace := ns |} l
            ∧ ∀ l', Notify {| GroupVersionResource := g; Namespace := ns |} l'
                    ∉ (perform1 c w1).2) as (Hst2 & Hd2 & Hn2).
    { destruct c as [sched|a|k']; simpl.
      - rewrite (Start_when_started sched w1 Hst1). simpl.
        split; [done|]. split; [done|]. intros l'. apply Notify_not_in_silent.
      - split; [by rewrite act_started|]. split; [by apply act_dormant|].
        intros l' Hin.
        destruct (act_notifies_synced a w1 _ l' Hin) as (e & Hk & Hs & _).
        destruct Hd as (e0 & Hk0 & _ & Hs0 & _). congruence.
      - split; [by rewrite runner_exit_started|].
        split; [by apply runner_exit_dormant|]. intros l'. apply not_elem_of_nil. }
    destruct (IH _ Hst2 Hd2) as [Hd3 Hn3]. split; [done|].
    intros l'. rewrite elem_of_app. intros [Hin|Hin].
    + by apply (Hn2 l').
    + by apply (Hn3 l').
Qed.

Lemma late_registration_is_never_served_witness :
  dormant
    (perform [DoStart [InitialListDone example.pods_in_a];
              DoActivity (InitialListDone example.pods_in_a);
              DoActivity (Deliver example.pods_in_a cache.Added example.web_a1)]
       (WatchInternal scenario.running_pair example.pods "ns-a" 7).1).1
    example.pods_in_a 7
  ∧ ∀ l', Notify example.pods_in_a l'
          ∉ (perform [DoStart [InitialListDone example.pods_in_a];
                      DoActivity (InitialListDone example.pods_in_a);
                      DoActivity (Deliver example.pods_in_a cache.Added
                                    example.web_a1)]
               (WatchInternal scenario.running_pair example.pods "ns-a" 7).1).2.
Proof.
  apply (late_registration_is_never_served scenario.running_pair
           (WatchInternal scenario.running_pair example.pods "ns-a" 7).1
           example.pods "ns-a" 7).
  - vm_compute. reflexivity.
  - vm_compute. reflexivity.
  - vm_compute. reflexivity.
Defined.

(** ** Start: launching *)

Lemma run_invariant (I : Watcher → Prop) (sched : list Activity) (w : Watcher) :
  (∀ a w, I w → I (act a w).1) → I w → I (run sched w).1.
Proof.
  intros Hact. revert w. induction sched as [|a rest IH]; intros w Hw; [done|].
  rewrite run_cons. simpl. by apply IH, Hact.
Qed.

(** The watcher a first call of [Start] leaves is the launched watcher
    after some activity of the other goroutines. *)
Lemma Start_first_watcher (sched : list Activity) (w : Watcher) :
  started w = false →
  ∃ prefix, watcher_of (Start sched w)
            = (run prefix (launch (with_started w true))).1.
Proof.
  intros Hst. unfold Start. rewrite Hst.
  pose proof (WaitForCacheSync_run sched (launch (with_started w true)) []) as H.
  destruct (WaitForCacheSync sched (launch (with_started w true)) [])
    as [w' evs r|w' evs r|w' evs]; simpl.
  - destruct H as (prefix & _ & -> & _). eauto.
  - destruct H as (prefix & _ & -> & _). eauto.
  - destruct H as (-> & _). eauto.
Qed.

Lemma Start_invariant (I : Watcher → Prop) (sched : list Activity) (w : Watcher) :
  (∀ a w, I w → I (act a w).1) →
  (started w = false → I (launch (with_started w true))) →
  I w → I (watcher_of (Start sched w)).
Proof.
  intros Hact Hlaunch Hw. destruct (started w) eqn:Hst.
  - by rewrite (Start_when_started sched w Hst).
  - destruct (Start_first_watcher sched w Hst) as (prefix & ->).
    apply run_invariant; auto.
Qed.

Lemma act_wg (a : Activity) (w : Watcher) : wg (act a w).1 = wg w.
Proof.
  destruct a as [k d obj|k|server res|]; simpl; [| | |done].
  - destruct (watches w !! k) as [e|]; [|done].
    destruct (running e && dynamic.serves (watched e) obj); [|done].
    by destruct (process k e d obj).
  - destruct (watches w !! k) as [e|]; [|done]. by destruct (running e).
  - by destruct (UpdateStatus_shape server w res)
      as (out & evs & _ & [->|(k' & e' & s & Hk' & ->)]).
Qed.

Lemma Start_launches_every_informer_aux (sched : list Activity) (w : Watcher) :
  started w = false →
  all_running (watcher_of (Start sched w))
  ∧ listeners (watcher_of (Start sched w)) = listeners w.
Proof.
  intros Hst. destruct (Start_first_watcher sched w Hst) as (prefix & ->).
  split.
  - apply (run_invariant all_running).
    + apply act_all_running.
    + apply launch_all_running.
  - by rewrite run_listeners, listeners_launch.
Qed.

(** X6.  A first call of [Start], however it ends, has launched the
    informer of every registered entry and added their number to the wait
    group, and it has neither added nor removed an entry nor changed the
    listener of one. *)
Theorem Start_launches_every_informer (sched : list Activity) (w : Watcher) :
  started w = false →
  wg (watcher_of (Start sched w)) = wg w + size (watches w)
  ∧ all_running (watcher_of (Start sched w))
  ∧ listeners (watcher_of (Start sched w)) = listeners w.
Proof.
  intros Hst. destruct (Start_first_watcher sched w Hst) as (prefix & ->).
  split; [|split].
  - apply (run_invariant (λ w', wg w' = wg w + size (watches w))).
    + intros a w' Hw'. by rewrite act_wg.
    + done.
  - apply (run_invariant all_running).
    + apply act_all_running.
    + apply launch_all_running.
  - by rewrite run_listeners, listeners_launch.
Qed.

Lemma Start_launches_every_informer_witness :
  wg (watcher_of (Start [InitialListDone example.pods_everywhere]
                    example.empty_cluster))
  = wg example.empty_cluster + size (watches example.empty_cluster)
  ∧ all_running (watcher_of (Start [InitialListDone example.pods_everywhere]
                               example.empty_cluster))
  ∧ listeners (watcher_of (Start [InitialListDone example.pods_everywhere]
                             example.empty_cluster))
    = listeners example.empty_cluster.
Proof.
  apply (Start_launches_every_informer
           [InitialListDone example.pods_everywhere] example.empty_cluster).
  reflexivity.
Defined.

(** X8.  With no watch registered, a first call of [Start] on an open stop
    channel returns at once: it waits for nothing, consumes nothing of
    the schedule, calls no listener, and leaves a started watcher with no
    entry. *)
Theorem Start_without_watches (sched : list Activity) (w : Watcher) :
  watches w = ∅ → started w = false → stop w = false →
  ∃ w', Start sched w = Returned w' [Lock; Unlock] [] sched
        ∧ watches w' = ∅ ∧ started w' = true ∧ wg w' = wg w.
Proof.
  intros Hw Hst Hstop. unfold Start. rewrite Hst.
  assert (watches (launch (with_started w true)) = ∅) as Hl.
  { unfold launch. simpl. by rewrite Hw, fmap_empty. }
  assert (all_synced (launch (with_started w true)) = true) as Hs.
  { unfold all_synced, informerSynceds. by rewrite Hl, map_to_list_empty. }
  assert (invoke_all (launch (with_started w true)) = []) as Hi.
  { unfold invoke_all. by rewrite Hl, map_to_list_empty. }
  exists (launch (with_started w true)).
  assert (WaitForCacheSync sched (launch (with_started w true)) []
          = WaitSynced (launch (with_started w true)) [] sched) as ->.
  { destruct sched; simpl; rewrite Hs; unfold launch; simpl; by rewrite Hstop. }
  rewrite Hi. split; [done|]. split; [done|]. split; [done|].
  unfold launch. simpl. rewrite Hw, map_size_empty. lia.
Qed.

Lemma Start_without_watches_witness :
  ∃ w', Start [CloseStop] (NewWatcher example.cluster)
        = Returned w' [Lock; Unlock] [] [CloseStop]
        ∧ watches w' = ∅ ∧ started w' = true
        ∧ wg w' = wg (NewWatcher example.cluster).
Proof.
  apply (Start_without_watches [CloseStop] (NewWatcher example.cluster));
    reflexivity.
Defined.

(** ** The wait group counts the running informers *)

Lemma elem_of_running_keys (w : Watcher) (k : watchKey) :
  k ∈ running_keys w ↔ ∃ e, watches w !! k = Some e ∧ running e = true.
Proof.
  unfold running_keys. rewrite elem_of_dom. unfold is_Some.
  setoid_rewrite map_lookup_filter_Some. simpl. naive_solver.
Qed.

Lemma act_running_keys (a : Activity) (w : Watcher) :
  running_keys (act a w).1 = running_keys w.
Proof.
  apply set_eq; intros k. rewrite !elem_of_running_keys. split.
  - intros (e1 & Hk1 & Hr1).
    destruct (act_entry_inv a w k e1 Hk1) as (e & Hk & Hcases).
    exists e. split; [done|].
    destruct Hcases as [->|[[s ->]| ->]]; done.
  - intros (e & Hk & Hr).
    destruct (act_entry a w k e Hk) as [H|[[s H]|H]]; eauto.
Qed.

Lemma launch_running_keys (w : Watcher) :
  running_keys (launch w) = dom (watches w).
Proof.
  apply set_eq; intros k. rewrite elem_of_running_keys, elem_of_dom.
  unfold launch. simpl. rewrite lookup_fmap. split.
  - intros (e & Hk & _). destruct (watches w !! k); [eauto|done].
  - intros [e Hk]. rewrite Hk. simpl. eauto.
Qed.

Lemma runner_exit_cases (k : watchKey) (w : Watcher) :
  runner_exit k w = w
  ∨ (k ∈ running_keys w ∧ stop w = true
     ∧ wg (runner_exit k w) = wg w - 1
     ∧ running_keys (runner_exit k w) = running_keys w ∖ {[k]}
     ∧ started (runner_exit k w) = started w
     ∧ stop (runner_exit k w) = true).
Proof.
  unfold runner_exit. destruct (watches w !! k) as [e|] eqn:Hk; [|by left].
  destruct (running e) eqn:Hr; [|by left].
  destruct (stop w) eqn:Hstop; [|by left]. simpl. right.
  split; [apply elem_of_running_keys; eauto|]. split; [done|]. split; [done|].
  split; [|done].
  apply set_eq; intros k'.
  rewrite elem_of_difference, elem_of_singleton, !elem_of_running_keys. simpl.
  destruct (decide (k' = k)) as [->|Hne].
  - rewrite lookup_insert_eq. split; [|naive_solver].
    intros (e1 & [= <-] & He1). done.
  - rewrite lookup_insert_ne by done. naive_solver.
Qed.

Lemma accounted_act (a : Activity) (w : Watcher) :
  accounted w → accounted (act a w).1.
Proof.
  intros [Hwg Hnone]. unfold accounted.
  by rewrite act_wg, act_running_keys, act_started.
Qed.

Lemma accounted_launch (w : Watcher) :
  accounted w → started w = false → accounted (launch (with_started w true)).
Proof.
  intros [Hwg Hnone] Hst. split; [|done].
  rewrite launch_running_keys. unfold launch. simpl.
  rewrite size_dom, Hwg, (Hnone Hst), size_empty. done.
Qed.

Lemma accounted_Start (sched : list Activity) (w : Watcher) :
  accounted w → accounted (watcher_of (Start sched w)).
Proof.
  intros Hw. apply Start_invariant; [apply accounted_act| |done].
  by apply accounted_launch.
Qed.

Lemma accounted_runner_exit (k : watchKey) (w : Watcher) :
  accounted w → accounted (runner_exit k w).
Proof.
  intros [Hwg Hnone].
  destruct (runner_exit_cases k w) as [->|(Hk & _ & Hwg' & Hkeys & Hst & _)];
    [done|].
  split.
  - rewrite Hwg', Hkeys, Hwg. rewrite size_difference.
    + by rewrite size_singleton.
    + by apply singleton_subseteq_l.
  - rewrite Hst. intros H. specialize (Hnone H). rewrite Hnone in Hk.
    by apply not_elem_of_empty in Hk.
Qed.

Lemma accounted_WatchInternal (w : Watcher) (g : schema.GroupVersionResource)
    (ns : string) (l : Listener) :
  accounted w → started w = false →
  accounted (WatchInternal w g ns l).1
  ∧ started (WatchInternal w g ns l).1 = false.
Proof.
  intros [Hwg Hnone] Hst. unfold WatchInternal.
  destruct (config_error (client w)); simpl; [done|].
  assert (running_keys
            (with_watches w
               (<[{| GroupVersionResource := g; Namespace := ns |} :=
                  {| resource := dynamic.Resource g; hasSynced := false;
                     store := ∅; listener := l;
                     watched := if decide (ns = "")
                                then dynamic.Namespace (dynamic.Resource g) ns
                                else dynamic.Resource g;
                     running := false |}]> (watches w))) = ∅) as Hkeys.
  { apply set_eq; intros k. rewrite elem_of_running_keys. simpl.
    split; [|by intros ?%not_elem_of_empty].
    intros (e & Hk & Hr).
    destruct (decide ({| GroupVersionResource := g; Namespace := ns |} = k))
      as [<-|Hne].
    - rewrite lookup_insert_eq in Hk. by injection Hk as <-.
    - rewrite lookup_insert_ne in Hk by done.
      rewrite <- (Hnone Hst). apply elem_of_running_keys. eauto. }
  split; [|done]. split; [|done].
  rewrite Hkeys, size_empty. simpl. by rewrite Hwg, (Hnone Hst), size_empty.
Qed.

Lemma accounted_register_all
    (regs : list (schema.GroupVersionResource * string * Listener))
    (w : Watcher) :
  accounted w → started w = false →
  accounted (register_all regs w) ∧ started (register_all regs w) = false.
Proof.
  revert w. induction regs as [|[[g ns] l] regs IH]; intros w Hw Hst; [done|].
  simpl. destruct (accounted_WatchInternal w g ns l Hw Hst) as [Hw1 Hst1].
  by apply IH.
Qed.

Lemma perform_invariant (I : Watcher → Prop) (calls : list Call) (w : Watcher) :
  (∀ c w, I w → I (perform1 c w).1) → I w → I (perform calls w).1.
Proof.
  intros Hstep. revert w. induction calls as [|c rest IH]; intros w Hw; [done|].
  rewrite perform_cons. simpl. by apply IH, Hstep.
Qed.

Lemma reachable_accounted (c : Client)
    (regs : list (schema.GroupVersionResource * string * Listener))
    (calls : list Call) :
  accounted (perform calls (register_all regs (NewWatcher c))).1.
Proof.
  apply perform_invariant.
  - intros [sched|a|k] w Hw; simpl.
    + by apply accounted_Start.
    + by apply accounted_act.
    + by apply accounted_runner_exit.
  - apply accounted_register_all; [|done].
    split; [|done]. simpl.
    assert (running_keys (NewWatcher c) = ∅) as ->; [|by rewrite size_empty].
    apply set_eq; intros k. rewrite elem_of_running_keys. simpl.
    split; [|by intros ?%not_elem_of_empty].
    intros (e & Hk & _). by rewrite lookup_empty in Hk.
Qed.

(** X9.  The wait group counts the running informers.  In every watcher
    reached from a new one by registrations followed by any calls of
    [Start], activity and runner exits, the counter of the wait group is
    the number of entries whose informer has been launched and has not
    exited, and none runs before [Start]. *)
Theorem wg_counts_running_informers (c : Client)
    (regs : list (schema.GroupVersionResource * string * Listener))
    (calls : list Call) :
  accounted (perform calls (register_all regs (NewWatcher c))).1.
Proof. apply reachable_accounted. Qed.

(** ** One resource per key *)

Lemma keyed_insert (w : Watcher) (k : watchKey) (e' : watch) :
  keyed w →
  (∀ key r, store e' !! key = Some r → key = cache.MetaNamespaceKeyFunc r) →
  keyed (with_watches w (<[k := e']> (watches w))).
Proof.
  intros Hw He' k0 e0 key r. simpl.
  destruct (decide (k = k0)) as [->|Hne].
  - rewrite lookup_insert_eq. intros [= <-]. apply He'.
  - rewrite lookup_insert_ne by done. apply Hw.
Qed.

Lemma keyed_store_insert (s : gmap string Resource) (obj : Resource) :
  (∀ key r, s !! key = Some r → key = cache.MetaNamespaceKeyFunc r) →
  ∀ key r, <[cache.MetaNamespaceKeyFunc obj := obj]> s !! key = Some r →
           key = cache.MetaNamespaceKeyFunc r.
Proof.
  intros Hs key r. destruct (decide (cache.MetaNamespaceKeyFunc obj = key)) as [<-|Hne].
  - rewrite lookup_insert_eq. by intros [= <-].
  - rewrite lookup_insert_ne by done. apply Hs.
Qed.

Lemma keyed_process (k : watchKey) (e : watch) (d : cache.DeltaType)
    (obj : Resource) :
  (∀ key r, store e !! key = Some r → key = cache.MetaNamespaceKeyFunc r) →
  ∀ key r, store (process k e d obj).1 !! key = Some r →
           key = cache.MetaNamespaceKeyFunc r.
Proof.
  intros Hs. unfold process, cache.Update, cache.Add.
  destruct d; try destruct (cache.Get (store e) obj); simpl;
    try (by apply keyed_store_insert).
  all: intros key r; unfold cache.Delete;
    intros [_ H]%lookup_delete_Some; by apply Hs.
Qed.

Lemma keyed_UpdateStatus
    (server : dynamic.ResourceInterface → Resource → Resource + error)
    (w : Watcher) (res : Resource) :
  keyed w → keyed (UpdateStatus server w res).1.1.
Proof.
  intros Hw. unfold UpdateStatus.
  destruct (watches w !! _) as [e|] eqn:Hk; [|done].
  destruct (server _ res) as [result|err]; [|done]. simpl.
  apply keyed_insert; [done|]. simpl.
  apply keyed_store_insert. intros key r. by eapply Hw.
Qed.

Lemma keyed_act (a : Activity) (w : Watcher) : keyed w → keyed (act a w).1.
Proof.
  intros Hw. destruct a as [k d obj|k|server res|]; simpl; [| | |done].
  - destruct (watches w !! k) as [e|] eqn:Hk; [|done].
    destruct (running e && dynamic.serves (watched e) obj); [|done].
    pose proof (keyed_process k e d obj (λ key r, Hw k e key r Hk)) as Hp.
    destruct (process k e d obj) as [e' evs]. simpl in *.
    apply keyed_insert; auto.
  - destruct (watches w !! k) as [e|] eqn:Hk; [|done].
    destruct (running e); [|done]. simpl.
    apply keyed_insert; [done|]. simpl. intros key r. by apply (Hw k e).
  - pose proof (keyed_UpdateStatus server w res Hw) as H.
    by destruct (UpdateStatus server w res) as [[w' out] evs].
Qed.

Lemma keyed_launch (w : Watcher) (b : bool) :
  keyed w → keyed (launch (with_started w b)).
Proof.
  intros Hw k e key r. unfold launch. simpl. rewrite lookup_fmap.
  destruct (watches w !! k) as [e0|] eqn:Hk; [|done]. simpl.
  intros [= <-]. simpl. by apply (Hw k e0).
Qed.

Lemma keyed_runner_exit (k : watchKey) (w : Watcher) :
  keyed w → keyed (runner_exit k w).
Proof.
  intros Hw. unfold runner_exit.
  destruct (watches w !! k) as [e|] eqn:Hk; [|done].
  destruct (running e && stop w); [|done].
  intros k0 e0 key r. simpl.
  destruct (decide (k = k0)) as [->|Hne].
  - rewrite lookup_insert_eq. intros [= <-]. simpl. by apply (Hw k0 e).
  - rewrite lookup_insert_ne by done. apply Hw.
Qed.

Lemma keyed_WatchInternal (w : Watcher) (g : schema.GroupVersionResource)
    (ns : string) (l : Listener) :
  keyed w → keyed (WatchInternal w g ns l).1.
Proof.
  intros Hw. unfold WatchInternal.
  destruct (config_error (client w)); simpl; [done|].
  apply keyed_insert; [done|]. simpl. intros key r. by rewrite lookup_empty.
Qed.

Lemma keyed_register_all
    (regs : list (schema.GroupVersionResource * string * Listener))
    (w : Watcher) :
  keyed w → keyed (register_all regs w).
Proof.
  revert w. induction regs as [|[[g ns] l] regs IH]; intros w Hw; [done|].
  simpl. by apply IH, keyed_WatchInternal.
Qed.

Lemma keys_of_keyed_store (s : gmap string Resource) :
  (∀ key r, s !! key = Some r → key = cache.MetaNamespaceKeyFunc r) →
  cache.MetaNamespaceKeyFunc <$> cache.List s = (map_to_list s).*1.
Proof.
  intros Hs. unfold cache.List.
  assert (∀ kr, kr ∈ map_to_list s → kr.1 = cache.MetaNamespaceKeyFunc kr.2) as H.
  { intros [key r] Hin%elem_of_map_to_list. by apply Hs. }
  induction (map_to_list s) as [|[key r] rest IH]; [done|].
  rewrite !fmap_cons. simpl. f_equal.
  - symmetry. apply (H (key, r)), list_elem_of_here.
  - apply IH. intros kr Hin. by apply H, list_elem_of_further.
Qed.

(** X10.  [ListInternal] never returns two resources of the same
    namespace and name.  In every watcher reached from a new one by
    registrations followed by calls of [Start], activity (informer
    deliveries, status updates) and runner exits, the store keys of the
    listed resources are pairwise different: an object written by
    [UpdateStatus] or by the informer replaces the one it had under that
    key. *)
Theorem List_has_one_resource_per_key (c : Client)
    (regs : list (schema.GroupVersionResource * string * Listener))
    (calls : list Call) (g : schema.GroupVersionResource) (ns : string) :
  NoDup (cache.MetaNamespaceKeyFunc
           <$> ListInternal (perform calls (register_all regs (NewWatcher c))).1
                 g ns).
Proof.
  assert (keyed (perform calls (register_all regs (NewWatcher c))).1) as Hk.
  { apply perform_invariant.
    - intros [sched|a|k] w Hw; simpl.
      + apply Start_invariant; [apply keyed_act| |done].
        intros _. by apply keyed_launch.
      + by apply keyed_act.
      + by apply keyed_runner_exit.
    - apply keyed_register_all. intros k e key r. simpl. by rewrite lookup_empty. }
  unfold ListInternal.
  destruct (watches _ !! _) as [e|] eqn:He; [|apply NoDup_nil_2].
  rewrite keys_of_keyed_store; [apply NoDup_fst_map_to_list|].
  intros key r. by eapply Hk.
Qed.

(** ** The mutex *)

Lemma lock_ok_app (held : bool) (evs1 evs2 : list Event) :
  lock_ok held evs1 = true → lock_ok false evs2 = true →
  lock_ok held (evs1 ++ evs2) = true.
Proof.
  revert held. induction evs1 as [|ev evs1 IH]; intros held H1 H2; simpl in *.
  - by destruct held.
  - destruct ev; try (apply andb_true_iff in H1 as [-> H1]; simpl); by apply IH.
Qed.

Lemma lock_ok_invoke (k : watchKey) (e : watch) :
  lock_ok false (invoke k e) = true.
Proof. by destruct (invoke_cases k e) as [[_ ->]|[_ ->]]. Qed.

Lemma lock_ok_act (a : Activity) (w : Watcher) :
  lock_ok false (act a w).2 = true.
Proof.
  destruct a as [k d obj|k|server res|]; simpl; [| | |done].
  - destruct (watches w !! k) as [e|]; [|done].
    destruct (running e && dynamic.serves (watched e) obj); [|done].
    pose proof (process_events k e d obj) as Hev.
    destruct (process k e d obj) as [e' evs]. simpl in *.
    by destruct Hev as [->|[[_ ->]|[_ ->]]].
  - destruct (watches w !! k) as [e|]; [|done]. by destruct (running e).
  - unfold UpdateStatus.
    destruct (watches w !! _) as [e|]; [|done]. by destruct (server _ res).
Qed.

Lemma lock_ok_run (sched : list Activity) (w : Watcher) :
  lock_ok false (run sched w).2 = true.
Proof.
  revert w. induction sched as [|a rest IH]; intros w; [done|].
  rewrite run_cons. simpl. apply lock_ok_app; [apply lock_ok_act | apply IH].
Qed.

Lemma lock_ok_invoke_all (w : Watcher) : lock_ok false (invoke_all w) = true.
Proof.
  unfold invoke_all.
  induction (map_to_list (watches w)) as [|[k e] rest IH]; [done|].
  rewrite fmap_cons. cbn [mjoin list_join].
  apply lock_ok_app; [apply lock_ok_invoke | apply IH].
Qed.

Lemma lock_ok_timeline (sched : list Activity) (w : Watcher) :
  lock_ok false (timeline (Start sched w)) = true.
Proof.
  unfold Start. destruct (started w); [done|].
  pose proof (WaitForCacheSync_run sched (launch (with_started w true)) []) as H.
  destruct (WaitForCacheSync sched (launch (with_started w true)) [])
    as [w' evs r|w' evs r|w' evs]; simpl.
  - destruct H as (prefix & _ & _ & -> & _). simpl.
    apply lock_ok_app; [apply lock_ok_run | apply lock_ok_invoke_all].
  - destruct H as (prefix & _ & _ & -> & _). simpl.
    rewrite app_nil_r. apply lock_ok_run.
  - destruct H as (_ & -> & _). simpl.
    rewrite app_nil_r. apply lock_ok_run.
Qed.

(** X11.  The mutex serialises the listener.  Along the trace of any
    sequence of calls of [Start], activity and runner exits, on any
    watcher, a lock is taken only when free, a listener is called only
    between a [Lock] and its [Unlock], and the lock is free at the end:
    no two listener calls overlap. *)
Theorem listener_calls_hold_the_lock (calls : list Call) (w : Watcher) :
  lock_ok false (perform calls w).2 = true.
Proof.
  revert w. induction calls as [|c rest IH]; intros w; [done|].
  rewrite perform_cons. simpl. apply lock_ok_app; [|apply IH].
  destruct c as [sched|a|k]; simpl.
  - apply lock_ok_timeline.
  - apply lock_ok_act.
  - done.
Qed.

(** ** Exists *)

Lemma EqualFold_refl (s : string) : EqualFold s s = true.
Proof. rewrite EqualFold_lower. by apply bool_decide_eq_true. Qed.

Lemma Name_empty_Resource : Res.Name (∅ : Resource) = "".
Proof.
  unfold Res.Name, unstructured.GetName, unstructured.NestedString.
  by rewrite lookup_empty.
Qed.

(** On strings of ASCII bytes: [Exists] does not look at the case of letters in the qualified
    name, and it says yes only for what is listed: two names that differ
    in case only get the same answer, and a yes means some resource of
    [List kind] has that qualified name up to case and a non-empty
    name. *)
Theorem Exists_is_case_insensitive_and_sound (w : Watcher)
    (kind qname qname' : string) :
  EqualFold qname qname' = true →
  Exists w kind qname = Exists w kind qname'
  ∧ (Exists w kind qname = true →
     ∃ r, r ∈ List w kind
          ∧ EqualFold (Res.QName r) qname = true
          ∧ Res.Name r ≠ "").
Proof.
  intros Hq. unfold Exists, Get. split.
  - by rewrite (Get_scan_same_class (List w kind) qname qname' Hq).
  - intros Hex%bool_decide_eq_true.
    destruct (Get_scan_found (List w kind) qname) as [Hempty|[Hin Hmatch]].
    + rewrite Hempty, Name_empty_Resource in Hex. done.
    + eauto.
Qed.

Lemma Exists_is_case_insensitive_and_sound_witness :
  Exists example.nodes_running "nodes" "NODE1.default"
  = Exists example.nodes_running "nodes" "node1.Default"
  ∧ (Exists example.nodes_running "nodes" "NODE1.default" = true →
     ∃ r, r ∈ List example.nodes_running "nodes"
          ∧ EqualFold (Res.QName r) "NODE1.default" = true
          ∧ Res.Name r ≠ "").
Proof.
  apply (Exists_is_case_insensitive_and_sound example.nodes_running
           "nodes" "NODE1.default" "node1.Default").
  reflexivity.
Defined.

Example Exists_finds_node :
  Exists example.nodes_running "nodes" "NODE1.default" = true
  ∧ Exists example.nodes_running "nodes" "node2.default" = false
  ∧ Exists example.nodes_running "pods" "node1.default" = false.
Proof. vm_compute. done. Qed.

(** ** Additions and deletions *)

(** X13.  On a synced watch every addition and every deletion calls the
    listener exactly once, under the lock, whatever the object's version:
    when a launched, synced informer delivers a deleted object, or an
    object whose key is not in the store, the trace is the lock, the call
    of the entry's listener and the unlock.  A deletion does so even for
    an object the store does not hold. *)
Theorem add_and_delete_notify_once (w : Watcher) (k : watchKey) (e : watch)
    (d : cache.DeltaType) (obj : Resource) :
  watches w !! k = Some e →
  running e = true →
  dynamic.serves (watched e) obj = true →
  hasSynced e = true →
  d = cache.Deleted ∨ cache.Get (store e) obj = None →
  (act (Deliver k d obj) w).2 = [Lock; Notify k (listener e); Unlock].
Proof.
  intros Hk Hr Hserve Hs Hd. unfold act. rewrite Hk, Hr, Hserve. simpl.
  assert ((process k e d obj).2 = [Lock; Notify k (listener e); Unlock]) as H.
  { unfold process, AddFunc, DeleteFunc, invoke. rewrite Hs.
    destruct Hd as [->|Hnone]; [done|]. rewrite Hnone. by destruct d. }
  by destruct (process k e d obj) as [e' evs].
Qed.

Lemma add_and_delete_notify_once_witness :
  (act (Deliver example.nodes_everywhere cache.Deleted scenario.pod_c)
     example.nodes_running).2
  = [Lock; Notify example.nodes_everywhere (listener example.nodes_entry); Unlock].
Proof.
  apply (add_and_delete_notify_once example.nodes_running
           example.nodes_everywhere example.nodes_entry
           cache.Deleted scenario.pod_c).
  - vm_compute. reflexivity.
  - reflexivity.
  - reflexivity.
  - reflexivity.
  - by left.
Defined.

(** ** Status updates and the registered namespaces *)

(** X14.  [UpdateStatus] looks the watch up under the resource's own
    namespace.  If every entry was registered for the empty namespace
    (with [Watch]), the status update of any resource that has a
    namespace fails with the no-watch error: the server is not called and
    the watcher is left as it was. *)
Theorem UpdateStatus_needs_watch_in_namespace
    (server : dynamic.ResourceInterface → Resource → Resource + error)
    (w : Watcher) (res : Resource) :
  (∀ k, is_Some (watches w !! k) → Namespace k = "") →
  unstructured.GetNamespace res ≠ "" →
  UpdateStatus server w res
  = (w,
     inr (ErrNoWatch
            (gvr_of (resolve (client w)
                       (Canonicalize (client w) (Res.Kind res))))),
     []).
Proof.
  intros Hall Hns. unfold UpdateStatus.
  destruct (watches w !! _) as [e|] eqn:Hk; [|done].
  destruct Hns. by rewrite <- (Hall _ (mk_is_Some _ _ Hk)).
Qed.

Lemma UpdateStatus_needs_watch_in_namespace_witness :
  UpdateStatus example.accepting (Watch (NewWatcher example.cluster) "pods" 1).1
    example.web_a1
  = ((Watch (NewWatcher example.cluster) "pods" 1).1,
     inr (ErrNoWatch
            (gvr_of (resolve (client (Watch (NewWatcher example.cluster) "pods" 1).1)
                       (Canonicalize
                          (client (Watch (NewWatcher example.cluster) "pods" 1).1)
                          (Res.Kind example.web_a1))))),
     []).
Proof.
  apply (UpdateStatus_needs_watch_in_namespace example.accepting
           (Watch (NewWatcher example.cluster) "pods" 1).1 example.web_a1).
  - intros k [e He]. unfold Watch, WatchNamespace, WatchInternal in He.
    simpl in He. apply lookup_insert_Some in He as [[Hk _]|[_ He]].
    + rewrite <- Hk. reflexivity.
    + rewrite lookup_empty in He. discriminate He.
  - vm_compute. intros H. discriminate H.
Defined.

Lemma Get_scan_finds (resources : list Resource) (r : Resource) (qname : string) :
  r ∈ resources → EqualFold (Res.QName r) qname = true →
  Get_scan resources qname ∈ resources
  ∧ EqualFold (Res.QName (Get_scan resources qname)) qname = true.
Proof.
  intros Hin Hr. induction resources as [|r0 rest IH]; simpl.
  - by apply elem_of_nil in Hin.
  - destruct (EqualFold (Res.QName r0) qname) eqn:E.
    + split; [apply list_elem_of_here | done].
    + apply elem_of_cons in Hin as [->|Hin]; [congruence|].
      destruct (IH Hin) as [H1 H2]. split; [by apply list_elem_of_further | done].
Qed.

(** X15.  A successful status update of a resource without namespace is
    seen by the queries at once: the object the server returned is in
    [List] of the resource's kind, and [Get] with the returned object's
    qualified name finds a listed resource of that qualified name (up to
    case). *)
Theorem UpdateStatus_then_query
    (server : dynamic.ResourceInterface → Resource → Resource + error)
    (w w' : Watcher) (res result : Resource) (evs : list Event) :
  UpdateStatus server w res = (w', inl result, evs) →
  unstructured.GetNamespace res = "" →
  result ∈ List w' (Res.Kind res)
  ∧ Get w' (Res.Kind res) (Res.QName result) ∈ List w' (Res.Kind res)
  ∧ EqualFold (Res.QName (Get w' (Res.Kind res) (Res.QName result)))
      (Res.QName result) = true.
Proof.
  intros Hup Hns.
  assert (result ∈ List w' (Res.Kind res)) as Hin.
  { unfold UpdateStatus in Hup. rewrite Hns in Hup.
    destruct (watches w !! _) as [e|] eqn:Hk; [|done].
    destruct (server _ res) as [r|err]; [|done].
    injection Hup as <- <- <-.
    unfold List, ListInternal. simpl. rewrite lookup_insert_eq. simpl.
    unfold cache.List, cache.Update. apply list_elem_of_fmap.
    exists (cache.MetaNamespaceKeyFunc r, r). split; [done|].
    apply elem_of_map_to_list, lookup_insert_eq. }
  split; [done|].
  apply (Get_scan_finds _ result); [done|apply EqualFold_refl].
Qed.

Lemma UpdateStatus_then_query_witness :
  example.node1' ∈ List
    (UpdateStatus example.accepting example.nodes_running example.node1).1.1
    (Res.Kind example.node1)
  ∧ Get (UpdateStatus example.accepting example.nodes_running example.node1).1.1
      (Res.Kind example.node1) (Res.QName example.node1')
    ∈ List (UpdateStatus example.accepting example.nodes_running
              example.node1).1.1 (Res.Kind example.node1)
  ∧ EqualFold
      (Res.QName
         (Get (UpdateStatus example.accepting example.nodes_running
                 example.node1).1.1
            (Res.Kind example.node1) (Res.QName example.node1')))
      (Res.QName example.node1') = true.
Proof.
  apply (UpdateStatus_then_query example.accepting example.nodes_running
           (UpdateStatus example.accepting example.nodes_running
              example.node1).1.1
           example.node1 example.node1'
           [CallUpdateStatus
              (dynamic.Resource (gvr_of (example.resolver "nodes")))
              example.node1]).
  - vm_compute. reflexivity.
  - reflexivity.
Defined.

(** ** Stop and Wait *)

Lemma act_stop_true (a : Activity) (w : Watcher) :
  stop w = true → stop (act a w).1 = true.
Proof.
  intros Hs. destruct a as [k d obj|k|server res|]; simpl; [| | |done].
  - destruct (watches w !! k) as [e|]; [|done].
    destruct (running e && dynamic.serves (watched e) obj); [|done].
    by destruct (process k e d obj).
  - destruct (watches w !! k) as [e|]; [|done]. by destruct (running e).
  - by destruct (UpdateStatus_shape server w res)
      as (out & evs & _ & [->|(k' & e' & s & Hk' & ->)]).
Qed.

Lemma runner_exit_stop (k : watchKey) (w : Watcher) :
  stop (runner_exit k w) = stop w.
Proof.
  unfold runner_exit. destruct (watches w !! k) as [e|]; [|done].
  by destruct (running e && stop w).
Qed.

Lemma end_step_stop_true (x : Ending) (w : Watcher) :
  stop w = true → stop (end_step x w).1 = true.
Proof.
  intros Hs. destruct x as [a|k]; simpl.
  - by apply act_stop_true.
  - by rewrite runner_exit_stop.
Qed.

Lemma end_step_accounted (x : Ending) (w : Watcher) :
  accounted w → accounted (end_step x w).1.
Proof.
  destruct x as [a|k]; simpl; [apply accounted_act|apply accounted_runner_exit].
Qed.

(** What holds of the watcher and is kept by every step holds when the
    wait ends; and the wait ends exactly on a zero counter. *)
Lemma wg_Wait_invariant (I : Watcher → Prop) (sched : list Ending)
    (w : Watcher) (others : list Event) :
  (∀ x w, I w → I (end_step x w).1) → I w →
  match wg_Wait sched w others with
  | WgDone w' _ _ => I w' ∧ wg w' = 0
  | WgPending w' _ => I w' ∧ wg w' ≠ 0
  end.
Proof.
  intros Hstep. revert w others.
  induction sched as [|x rest IH]; intros w others Hw; simpl.
  - destruct (Nat.eqb_spec (wg w) 0); done.
  - destruct (Nat.eqb_spec (wg w) 0); [done|].
    specialize (Hstep x w Hw). destruct (end_step x w) as [w1 evs1].
    by apply IH.
Qed.

Lemma accounted_no_runner (w : Watcher) :
  accounted w → wg w = 0 → running_keys w = ∅.
Proof.
  intros [Hwg _] H0. rewrite Hwg in H0.
  by apply size_empty_inv, leibniz_equiv in H0.
Qed.

(** X16.  [Stop] must not be called twice.  After a call of [Stop] on an
    open channel, whether it has returned or is still waiting for the
    runners, the channel is closed, and a further call of [Stop]
    panics. *)
Theorem Stop_second_call_panics (sched sched' : list Ending) (w : Watcher) :
  stop w = false →
  ∃ w', (∃ others, (∃ rest, Stop sched w = StopReturned w' others rest)
                   ∨ Stop sched w = StopBlocked w' others)
        ∧ Stop sched' w' = StopPanics.
Proof.
  intros Hs. unfold Stop at 1 2. rewrite Hs.
  pose proof (wg_Wait_invariant (λ w, stop w = true) sched (with_stop w true) []
                end_step_stop_true eq_refl) as H.
  destruct (wg_Wait sched (with_stop w true) []) as [w' others rest|w' others];
    destruct H as [Hstop _]; exists w'; (split; [eauto|]);
    unfold Stop; by rewrite Hstop.
Qed.

Lemma Stop_second_call_panics_witness :
  ∃ w', (∃ others, (∃ rest, Stop [Exits example.nodes_everywhere]
                              example.nodes_running
                            = StopReturned w' others rest)
                   ∨ Stop [Exits example.nodes_everywhere] example.nodes_running
                     = StopBlocked w' others)
        ∧ Stop [] w' = StopPanics.
Proof.
  apply (Stop_second_call_panics [Exits example.nodes_everywhere] []
           example.nodes_running).
  reflexivity.
Defined.

(** X17.  [Stop] returns only when every runner has exited.  On a watcher
    whose wait group counts its running informers, a call of [Stop] that
    returns leaves the stop channel closed, the counter at zero and no
    informer running. *)
Theorem Stop_waits_for_runners (sched : list Ending) (w w' : Watcher)
    (others : list Event) (rest : list Ending) :
  accounted w →
  Stop sched w = StopReturned w' others rest →
  stop w' = true ∧ wg w' = 0 ∧ running_keys w' = ∅.
Proof.
  intros Hacc. unfold Stop. destruct (stop w) eqn:Hs; [done|].
  pose proof (wg_Wait_invariant (λ w, accounted w ∧ stop w = true) sched
                (with_stop w true) []) as H.
  destruct (wg_Wait sched (with_stop w true) []) as [w1 o1 r1|w1 o1]; [|done].
  intros [= <- <- <-].
  destruct H as [[Hacc1 Hstop1] Hwg1].
  - intros x w0 [H1 H2]. split; [by apply end_step_accounted|].
    by apply end_step_stop_true.
  - done.
  - split; [done|]. split; [done|]. by apply accounted_no_runner.
Qed.

Lemma Stop_waits_for_runners_witness :
  stop (runner_exit example.nodes_everywhere
          (with_stop example.nodes_running true)) = true
  ∧ wg (runner_exit example.nodes_everywhere
          (with_stop example.nodes_running true)) = 0
  ∧ running_keys (runner_exit example.nodes_everywhere
                    (with_stop example.nodes_running true)) = ∅.
Proof.
  apply (Stop_waits_for_runners [Exits example.nodes_everywhere]
           example.nodes_running _ [] []).
  - apply (reachable_accounted example.cluster
             [(gvr_of (example.resolver "nodes"), "", 1)]
             [DoStart [Deliver example.nodes_everywhere cache.Sync example.node1;
                       InitialListDone example.nodes_everywhere]]).
  - vm_compute. reflexivity.
Defined.

Lemma runner_exit_not_running (k : watchKey) (w : Watcher) :
  stop w = true → k ∉ running_keys (runner_exit k w).
Proof.
  intros Hstop. rewrite elem_of_running_keys. unfold runner_exit.
  destruct (watches w !! k) as [e|] eqn:Hk.
  - rewrite Hstop, andb_true_r. destruct (running e) eqn:Hr; simpl.
    + rewrite lookup_insert_eq. by intros (e1 & [= <-] & He1).
    + intros (e1 & He1 & Hr1). congruence.
  - intros (e1 & He1 & _). congruence.
Qed.

Lemma runner_exit_running_subset (k0 k : watchKey) (w : Watcher) :
  k ∈ running_keys (runner_exit k0 w) → k ∈ running_keys w.
Proof.
  destruct (runner_exit_cases k0 w) as [->|(_ & _ & _ & -> & _)]; [done|].
  by intros [? _]%elem_of_difference.
Qed.

(** If the channel is closed and every running informer exits at some
    point of the schedule, the wait for the runners ends. *)
Lemma wg_Wait_completes (sched : list Ending) (w : Watcher)
    (others : list Event) :
  accounted w → stop w = true →
  (∀ k, k ∈ running_keys w → Exits k ∈ sched) →
  ∃ w' evs rest, wg_Wait sched w others = WgDone w' evs rest.
Proof.
  revert w others. induction sched as [|x rest IH];
    intros w others Hacc Hstop Hexits; simpl.
  - destruct (Nat.eqb_spec (wg w) 0) as [|Hne]; [eauto|].
    destruct Hacc as [Hwg _]. rewrite Hwg in Hne.
    destruct (set_choose_L (running_keys w)) as [k Hk].
    { intros Hempty. rewrite Hempty, size_empty in Hne. done. }
    by apply Hexits, elem_of_nil in Hk.
  - destruct (Nat.eqb_spec (wg w) 0) as [|Hne]; [eauto|].
    pose proof (end_step_accounted x w Hacc) as Hacc1.
    pose proof (end_step_stop_true x w Hstop) as Hstop1.
    assert (∀ k, k ∈ running_keys (end_step x w).1 → Exits k ∈ rest) as Hexits1.
    { intros k Hk. destruct x as [a|k0]; simpl in Hk.
      - rewrite act_running_keys in Hk.
        apply Hexits, elem_of_cons in Hk as [Hk|Hk]; [discriminate Hk|done].
      - pose proof (runner_exit_running_subset k0 k w Hk) as Hk'.
        apply Hexits, elem_of_cons in Hk' as [Heq|Hk']; [|done].
        injection Heq as ->. by apply runner_exit_not_running in Hk. }
    destruct (end_step x w) as [w1 evs1]. simpl in *. by apply IH.
Qed.

(** X18.  [Stop] returns: on a watcher whose wait group counts its
    running informers and whose stop channel is open, [Stop] returns once
    every running informer's runner has exited. *)
Theorem Stop_returns (sched : list Ending) (w : Watcher) :
  accounted w → stop w = false →
  (∀ k, k ∈ running_keys w → Exits k ∈ sched) →
  ∃ w' others rest, Stop sched w = StopReturned w' others rest.
Proof.
  intros Hacc Hstop Hexits. unfold Stop. rewrite Hstop.
  destruct (wg_Wait_completes sched (with_stop w true) [])
    as (w' & evs & rest & ->); eauto.
Qed.

Lemma Stop_returns_witness :
  ∃ w' others rest,
    Stop [Runs (Deliver example.nodes_everywhere cache.Deleted example.node1);
          Exits example.nodes_everywhere]
      example.nodes_running
    = StopReturned w' others rest.
Proof.
  apply (Stop_returns _ example.nodes_running).
  - apply (reachable_accounted example.cluster
             [(gvr_of (example.resolver "nodes"), "", 1)]
             [DoStart [Deliver example.nodes_everywhere cache.Sync example.node1;
                       InitialListDone example.nodes_everywhere]]).
  - reflexivity.
  - intros k Hk. apply elem_of_running_keys in Hk as (e & Hk & _).
    assert (k = example.nodes_everywhere) as ->.
    { destruct (decide (k = example.nodes_everywhere)) as [|Hne]; [done|].
      assert (watches example.nodes_running
              = <[example.nodes_everywhere := example.nodes_entry]> ∅) as Hw
        by (vm_compute; reflexivity).
      rewrite Hw, lookup_insert_ne, lookup_empty in Hk by done.
      discriminate Hk. }
    apply list_elem_of_further, list_elem_of_here.
Defined.

(** X19.  [Stop] before [Start] returns at once: on a watcher that was
    never started, [Stop] closes the channel, finds the counter of the
    wait group at zero and returns without waiting for anything, leaving
    the rest of the watcher as it was. *)
Theorem Stop_before_Start (sched : list Ending) (w : Watcher) :
  accounted w → started w = false → stop w = false →
  Stop sched w = StopReturned (with_stop w true) [] sched.
Proof.
  intros [Hwg Hnone] Hst Hstop.
  unfold Stop. rewrite Hstop.
  assert (wg (with_stop w true) = 0) as H0.
  { simpl. by rewrite Hwg, (Hnone Hst), size_empty. }
  destruct sched; simpl in *; by rewrite H0.
Qed.

Lemma Stop_before_Start_witness :
  Stop [Exits example.pods_everywhere] example.empty_cluster
  = StopReturned (with_stop example.empty_cluster true) []
      [Exits example.pods_everywhere].
Proof.
  apply (Stop_before_Start [Exits example.pods_everywhere]
           example.empty_cluster).
  - apply (reachable_accounted example.cluster
             [(gvr_of (example.resolver "nodes"), "", 1);
              (gvr_of (example.resolver "pods"), "", 2)] []).
  - reflexivity.
  - reflexivity.
Defined.

Lemma kept_running_act (a : Activity) (w : Watcher) :
  kept_running w → started w = true → kept_running (act a w).1.
Proof.
  intros Hk Hst _ Hstop1.
  destruct (stop w) eqn:Hstop.
  - by rewrite (act_stop_true a w Hstop) in Hstop1.
  - apply act_all_running. by apply Hk.
Qed.

Lemma kept_running_end_step (x : Ending) (w : Watcher) :
  kept_running w → started w = true → kept_running (end_step x w).1.
Proof.
  destruct x as [a|k]; simpl; [apply kept_running_act|].
  intros Hk Hst _ Hstop1. rewrite runner_exit_stop in Hstop1.
  assert (runner_exit k w = w) as ->.
  { unfold runner_exit. destruct (watches w !! k); [|done].
    by rewrite Hstop1, andb_false_r. }
  by apply Hk.
Qed.

Lemma end_step_started (x : Ending) (w : Watcher) :
  started (end_step x w).1 = started w.
Proof.
  destruct x as [a|k]; simpl; [apply act_started|apply runner_exit_started].
Qed.

Lemma runner_exit_listeners (k : watchKey) (w : Watcher) :
  listeners (runner_exit k w) = listeners w.
Proof.
  unfold runner_exit. destruct (watches w !! k) as [e|] eqn:Hk; [|done].
  destruct (running e && stop w); [|done].
  unfold listeners. simpl. rewrite fmap_insert. simpl.
  apply insert_id. by rewrite lookup_fmap, Hk.
Qed.

Lemma end_step_listeners (x : Ending) (w : Watcher) :
  listeners (end_step x w).1 = listeners w.
Proof.
  destruct x as [a|k]; simpl; [apply act_listeners|apply runner_exit_listeners].
Qed.

(** X20.  [Wait] does not return while the stop channel is open.  On a
    watcher that has at least one watch registered, was not started and
    whose wait group is in order, a call of [Wait] that returns does so
    with the stop channel closed: until some goroutine calls [Stop], it
    blocks. *)
Theorem Wait_blocks_until_stopped (sched : list Activity)
    (ending : list Ending) (w w' : Watcher) (own others : list Event)
    (rest : list Ending) :
  accounted w → started w = false → watches w ≠ ∅ →
  Wait sched ending w = AfterStart own (WgDone w' others rest) →
  stop w' = true.
Proof.
  intros Hacc Hst Hne. unfold Wait.
  pose proof (Start_first_watcher sched w Hst) as (prefix & Hw1).
  pose proof (accounted_Start sched w Hacc) as Hacc1.
  pose proof (Start_started sched w) as Hst1.
  pose proof (Start_launches_every_informer_aux sched w Hst) as (Hrun1 & Hl1).
  destruct (Start sched w) as [w1 own1 others1 rest1| |]; [|done..].
  simpl in *.
  pose proof (wg_Wait_invariant
                (λ w0, accounted w0 ∧ kept_running w0 ∧ started w0 = true
                       ∧ listeners w0 = listeners w)
                ((Runs <$> rest1) ++ ending) w1 others1) as H.
  destruct (wg_Wait ((Runs <$> rest1) ++ ending) w1 others1)
    as [w2 o2 r2|w2 o2]; [|done].
  intros [= <- <- <- <-].
  destruct H as [(Hacc2 & Hkept2 & Hst2 & Hl2) Hwg2].
  - intros x w0 (H1 & H2 & H3 & H4). split; [by apply end_step_accounted|].
    split; [by apply kept_running_end_step|].
    split; [by rewrite end_step_started|]. by rewrite end_step_listeners.
  - split; [done|]. split; [by intros _ _|]. done.
  - destruct (stop w2) eqn:Hstop2; [done|]. exfalso.
    pose proof (accounted_no_runner w2 Hacc2 Hwg2) as Hnone.
    apply Hne. apply map_empty. intros k.
    destruct (watches w !! k) as [e|] eqn:Hk; [|done].
    assert (is_Some (watches w2 !! k)) as [e2 Hk2].
    { assert (listeners w2 !! k = Some (listener e)) as Hlk.
      { rewrite Hl2. unfold listeners. by rewrite lookup_fmap, Hk. }
      unfold listeners in Hlk. rewrite lookup_fmap in Hlk.
      destruct (watches w2 !! k); [eauto|done]. }
    assert (k ∈ running_keys w2) as Hin.
    { apply elem_of_running_keys. exists e2. split; [done|].
      by apply (Hkept2 Hst2 Hstop2 k). }
    rewrite Hnone in Hin. by apply not_elem_of_empty in Hin.
Qed.

Lemma Wait_blocks_until_stopped_witness :
  stop (runner_exit example.nodes_everywhere
          (act CloseStop
             (watcher_of (Start [InitialListDone example.nodes_everywhere]
                            (Watch (NewWatcher example.cluster) "nodes" 1).1))).1)
  = true.
Proof.
  apply (Wait_blocks_until_stopped
           [InitialListDone example.nodes_everywhere]
           [Runs CloseStop; Exits example.nodes_everywhere]
           (Watch (NewWatcher example.cluster) "nodes" 1).1 _
           [Lock; Unlock; Lock; Notify example.nodes_everywhere 1; Unlock]
           [] []).
  - apply (reachable_accounted example.cluster
             [(gvr_of (example.resolver "nodes"), "", 1)] []).
  - reflexivity.
  - intros H.
    apply (f_equal (λ m : gmap watchKey watch,
                      bool_decide (is_Some (m !! example.nodes_everywhere)))) in H.
    vm_compute in H. discriminate H.
  - vm_compute. reflexivity.
Defined.

Example Wait_is_pending_while_open :
  ∃ own w' others,
    Wait [InitialListDone example.nodes_everywhere]
      [Exits example.nodes_everywhere]
      (Watch (NewWatcher example.cluster) "nodes" 1).1
    = AfterStart own (WgPending w' others).
Proof. do 3 eexists. vm_compute. reflexivity. Qed.

(** * Queries over the code's comparison *)

Lemma ascii_case_folding : case_folding EqualFold.
Proof.
  split; [|done]. intros q q' s. apply EqualFold_same_class.
Qed.

Lemma Get_is_Get_with (w : Watcher) (kind qname : string) :
  Get w kind qname = Get_with EqualFold w kind qname.
Proof.
  unfold Get, Get_with. induction (List w kind) as [|r rest IH]; simpl; [done|].
  by rewrite IH.
Qed.

Lemma Exists_is_Exists_with (w : Watcher) (kind qname : string) :
  Exists w kind qname = Exists_with EqualFold w kind qname.
Proof. unfold Exists, Exists_with. by rewrite Get_is_Get_with. Qed.

Lemma Get_scan_with_find (fold : string → string → bool)
    (resources : list Resource) (qname : string) :
  Get_scan_with fold resources qname =
  match List.find (λ r, fold (Res.QName r) qname) resources with
  | Some r => r
  | None => ∅
  end.
Proof.
  induction resources as [|r rest IH]; simpl; [done|].
  by destruct (fold (Res.QName r) qname).
Qed.

Lemma Get_scan_with_found (fold : string → string → bool)
    (resources : list Resource) (qname : string) :
  Get_scan_with fold resources qname = ∅
  ∨ (Get_scan_with fold resources qname ∈ resources
     ∧ fold (Res.QName (Get_scan_with fold resources qname)) qname = true).
Proof.
  induction resources as [|r rest IH]; simpl; [by left|].
  destruct (fold (Res.QName r) qname) eqn:E.
  - right. split; [apply list_elem_of_here | done].
  - destruct IH as [IH|[IH1 IH2]]; [by left|].
    right. split; [by apply list_elem_of_further | done].
Qed.

Lemma Get_scan_with_same_class (fold : string → string → bool)
    (resources : list Resource) (q q' : string) :
  (∀ s, fold s q = fold s q') →
  Get_scan_with fold resources q = Get_scan_with fold resources q'.
Proof.
  intros Hq. induction resources as [|r rest IH]; simpl; [done|].
  by rewrite Hq, IH.
Qed.

(** C7.  [Get] is the linear scan the spec describes, for the comparison
    the code uses: whatever comparison stands for [strings.EqualFold],
    provided it matches by classes and is the ASCII loop on ASCII strings,
    [Get] returns the first resource of [List kind] whose qualified name
    matches the given one, and the empty Resource when none does; and the
    spellings [Foo.default] and [foo.DEFAULT] give the same result. *)
Theorem Get_scan_modulo_case (fold : string → string → bool) (w : Watcher)
    (kind qname : string) :
  case_folding fold →
  Get_with fold w kind qname = Get_spec_with fold w kind qname
  ∧ (Get_with fold w kind qname = ∅
     ∨ (Get_with fold w kind qname ∈ List w kind
        ∧ fold (Res.QName (Get_with fold w kind qname)) qname = true))
  ∧ Get_with fold w kind "Foo.default" = Get_with fold w kind "foo.DEFAULT".
Proof.
  intros [Hclass Hascii].
  split; [apply Get_scan_with_find|].
  split; [apply Get_scan_with_found|].
  apply Get_scan_with_same_class. intros s. apply Hclass.
  by rewrite Hascii.
Qed.

Lemma Get_scan_modulo_case_witness :
  Get_with EqualFold example.nodes_running "nodes" "NODE1.default"
  = Get_spec_with EqualFold example.nodes_running "nodes" "NODE1.default"
  ∧ (Get_with EqualFold example.nodes_running "nodes" "NODE1.default" = ∅
     ∨ (Get_with EqualFold example.nodes_running "nodes" "NODE1.default"
        ∈ List example.nodes_running "nodes"
        ∧ EqualFold
            (Res.QName (Get_with EqualFold example.nodes_running "nodes"
                          "NODE1.default")) "NODE1.default" = true))
  ∧ Get_with EqualFold example.nodes_running "nodes" "Foo.default"
    = Get_with EqualFold example.nodes_running "nodes" "foo.DEFAULT".
Proof.
  apply (Get_scan_modulo_case EqualFold example.nodes_running "nodes"
           "NODE1.default").
  exact ascii_case_folding.
Defined.

Example Get_with_finds_node :
  Get_with EqualFold example.nodes_running "nodes" "NODE1.default"
  = example.node1.
Proof. vm_compute. reflexivity. Qed.

(** X12.  [Exists] does not look at the case of letters in the qualified
    name, and it says yes only for what is listed, for the comparison the
    code uses: whatever comparison stands for [strings.EqualFold],
    provided it matches by classes and is the ASCII loop on ASCII strings,
    two names that match each other get the same answer, and a yes means
    some resource of [List kind] has a matching qualified name and a
    non-empty name. *)
Theorem Exists_modulo_case (fold : string → string → bool) (w : Watcher)
    (kind qname qname' : string) :
  case_folding fold →
  fold qname qname' = true →
  Exists_with fold w kind qname = Exists_with fold w kind qname'
  ∧ (Exists_with fold w kind qname = true →
     ∃ r, r ∈ List w kind
          ∧ fold (Res.QName r) qname = true
          ∧ Res.Name r ≠ "").
Proof.
  intros [Hclass _] Hq. unfold Exists_with, Get_with. split.
  - rewrite (Get_scan_with_same_class fold (List w kind) qname qname'); [done|].
    intros s. by apply Hclass.
  - intros Hex%bool_decide_eq_true.
    destruct (Get_scan_with_found fold (List w kind) qname)
      as [Hempty|[Hin Hmatch]].
    + rewrite Hempty, Name_empty_Resource in Hex. done.
    + eauto.
Qed.

Lemma Exists_modulo_case_witness :
  Exists_with EqualFold example.nodes_running "nodes" "NODE1.default"
  = Exists_with EqualFold example.nodes_running "nodes" "node1.Default"
  ∧ (Exists_with EqualFold example.nodes_running "nodes" "NODE1.default" = true →
     ∃ r, r ∈ List example.nodes_running "nodes"
          ∧ EqualFold (Res.QName r) "NODE1.default" = true
          ∧ Res.Name r ≠ "").
Proof.
  apply (Exists_modulo_case EqualFold example.nodes_running
           "nodes" "NODE1.default" "node1.Default").
  - exact ascii_case_folding.
  - reflexivity.
Defined.

(** * The first call of Start *)

Lemma run_app (s1 s2 : list Activity) (w : Watcher) :
  (run (s1 ++ s2) w).1 = (run s2 (run s1 w).1).1.
Proof.
  revert w. induction s1 as [|a s1 IH]; intros w; [done|].
  rewrite <- app_comm_cons, !run_cons. simpl. apply IH.
Qed.

Lemma run_stop_open (sched : list Activity) (w : Watcher) :
  CloseStop ∉ sched → stop (run sched w).1 = stop w.
Proof.
  revert w. induction sched as [|a rest IH]; intros w Hno; [done|].
  rewrite run_cons. simpl. rewrite IH.
  - apply act_stop. intros ->. apply Hno, list_elem_of_here.
  - intros Hin. by apply Hno, list_elem_of_further.
Qed.

Lemma run_entry_None (sched : list Activity) (w : Watcher) (k : watchKey) :
  watches w !! k = None → watches (run sched w).1 !! k = None.
Proof.
  revert w. induction sched as [|a rest IH]; intros w Hk; [done|].
  rewrite run_cons. simpl. by apply IH, act_entry_None.
Qed.

Lemma run_all_synced (sched : list Activity) (w : Watcher) :
  all_synced w = true → all_synced (run sched w).1 = true.
Proof.
  rewrite !all_synced_spec. intros Hs k e' Hk'.
  destruct (watches w !! k) as [e|] eqn:Hk.
  - destruct (run_synced_mono sched w k e Hk (Hs k e Hk)) as (e2 & Hk2 & Hs2).
    congruence.
  - by rewrite (run_entry_None sched w k Hk) in Hk'.
Qed.

(** C3.  A first call of [Start] blocks until every registered informer
    is ready and then calls every entry's listener exactly once, whatever
    the stores hold.  If the call returns, every informer had synced when
    it passed the barrier, and the listener calls it made are the
    registered (entry, listener) pairs, each entry once.  While the stop
    channel stays open: if some informer is still unsynced when the
    schedule ends, the call is still blocked at the barrier and has called
    no listener; and if every registered informer completes its first
    listing at some point of the schedule, the call does return. *)
Theorem Start_first_call (sched : list Activity) (w : Watcher) :
  started w = false →
  (∀ w' own others rest,
     Start sched w = Returned w' own others rest →
     all_synced w' = true
     ∧ notifications own = map_to_list (listeners w)
     ∧ ∀ k e, watches w !! k = Some e →
         filter (λ kl, kl.1 = k) (notifications own) = [(k, listener e)])
  ∧ (stop w = false → CloseStop ∉ sched →
     (all_synced (run sched (launch (with_started w true))).1 = false →
      ∃ w' own others,
        Start sched w = Waiting w' own others ∧ notifications own = [])
     ∧ ((∀ k, is_Some (watches w !! k) → InitialListDone k ∈ sched) →
        ∃ w' own others rest, Start sched w = Returned w' own others rest)).
Proof.
  intros Hst. split.
  - intros w' own others rest HS.
    pose proof (Start_outcome_cases sched w Hst) as H. by rewrite HS in H.
  - intros Hstop Hno. split; [|by apply Start_returns].
    intros Hunsynced. unfold Start. rewrite Hst.
    pose proof (WaitForCacheSync_run sched (launch (with_started w true)) [])
      as H.
    destruct (WaitForCacheSync sched (launch (with_started w true)) [])
      as [w' evs r|w' evs r|w' evs].
    + destruct H as (prefix & -> & -> & _ & _ & Hs).
      rewrite run_app, (run_all_synced r _ Hs) in Hunsynced. done.
    + destruct H as (prefix & -> & -> & _ & Hclosed).
      rewrite run_stop_open in Hclosed.
      * unfold launch in Hclosed. simpl in Hclosed. congruence.
      * intros Hin. apply Hno, elem_of_app. by left.
    + eauto.
Qed.

Lemma Start_first_call_witness :
  ∃ w' own others rest,
    Start [InitialListDone example.pods_everywhere;
           InitialListDone example.nodes_everywhere]
      example.empty_cluster
    = Returned w' own others rest
    ∧ all_synced w' = true
    ∧ notifications own = map_to_list (listeners example.empty_cluster).
Proof.
  destruct (Start_first_call
              [InitialListDone example.pods_everywhere;
               InitialListDone example.nodes_everywhere]
              example.empty_cluster eq_refl) as [Hsafe Hopen].
  destruct (Hopen eq_refl) as [_ Hlive].
  { rewrite !elem_of_cons, elem_of_nil.
    intros [H|[H|H]]; [discriminate H..|done]. }
  destruct Hlive as (w' & own & others & rest & HS).
  { intros k [e Hk].
    unfold example.empty_cluster, Watch, WatchNamespace, WatchInternal in Hk.
    simpl in Hk. apply lookup_insert_Some in Hk as [[<- _]|[_ Hk]].
    { apply list_elem_of_here. }
    apply lookup_insert_Some in Hk as [[<- _]|[_ Hk]].
    { apply list_elem_of_further, list_elem_of_here. }
    rewrite lookup_empty in Hk. discriminate Hk. }
  exists w', own, others, rest. split; [exact HS|].
  destruct (Hsafe w' own others rest HS) as (H1 & H2 & _). by split.
Defined.

Example Start_blocks_at_the_barrier :
  ∃ w', Start [InitialListDone example.pods_everywhere] example.empty_cluster
        = Waiting w' [Lock; Unlock] [] ∧ all_synced w' = false.
Proof. eexists. vm_compute. done. Qed.

(** * Namespace scoping, on the inputs where it fails *)

(** C1.  Namespace scoping does not hold of the code.  With pods
    registered in ns-a only and a pod of ns-b in the cluster, the entry
    of ns-a takes that pod in, so listing the entry returns an object of
    ns-b, while [List] of the kind, which reads only the entry of the
    empty namespace, returns nothing at all.  With pods registered in ns-a
    and for every namespace, [List] of the kind returns the pod of
    ns-b. *)
Theorem namespace_scoping_fails :
  registered_in scenario.only_a_started "pods" "ns-a"
  ∧ ListInternal scenario.only_a_started example.pods "ns-a" = [example.web_b]
  ∧ List scenario.only_a_started "pods" = []
  ∧ registered_in example.a_and_everywhere_started "pods" "ns-a"
  ∧ List example.a_and_everywhere_started "pods" = [example.web_b]
  ∧ unstructured.GetNamespace example.web_b = "ns-b".
Proof.
  split; [vm_compute; eexists; reflexivity|].
  split; [vm_compute; reflexivity|].
  split; [vm_compute; reflexivity|].
  split; [vm_compute; eexists; reflexivity|].
  split; [vm_compute; reflexivity|].
  reflexivity.
Qed.

(** * The echo of a status update, on another entry *)

(** C5, as stated, fails.  Pods are registered in ns-a and for every
    namespace, both entries hold version 1 of a pod of ns-a.  The status
    update of that pod succeeds and returns version 5, which goes into
    the store of the ns-a entry only; the modified event with version 5
    then reaches the informer of the other entry, which still holds
    version 1, and its listener is called. *)
Lemma UpdateStatus_echo_on_other_entry :
  (UpdateStatus example.accepting scenario.both_hold_web_a1 example.web_a1).1.2
  = inl scenario.web_a5
  ∧ (act (Deliver example.pods_everywhere cache.Updated scenario.web_a5)
       (UpdateStatus example.accepting scenario.both_hold_web_a1
          example.web_a1).1.1).2
    = [Lock; Notify example.pods_everywhere 2; Unlock].
Proof.
  split; vm_compute; reflexivity.
Qed.
